(** * Flag closure of [include/mbedtls/config_adjust_legacy_crypto.h]

    The header is a sequence of conditional-compilation blocks
    [#if <condition> / #define <macro> / #endif].  The preprocessor reads it
    once, top to bottom; every [#if] is evaluated against the macros defined
    at that point, and a [#define] is visible to the blocks that follow it.

    The development has three layers:
    - the header itself, block by block, as functions on the set of defined
      macros ([adjust_legacy_crypto], [config_adjust_legacy_crypto_h]);
    - the same blocks as a table of rules (condition, defined macro) with an
      evaluator, so that the order of evaluation and repeated passes can be
      talked about ([rules], [pass]), and the proof that one pass over the
      table in textual order is the header;
    - the properties of the resolution. *)

From Stdlib Require Import Permutation.
From stdpp Require Import gmap strings list sets.

Open Scope string_scope.

Set Warnings "-clear-no-such-hyp".

(** ** Macro names *)

Module Flag.

Definition MBEDTLS_MD_C : string := "MBEDTLS_MD_C".
Definition MBEDTLS_MD_LIGHT : string := "MBEDTLS_MD_LIGHT".
Definition MBEDTLS_ECJPAKE_C : string := "MBEDTLS_ECJPAKE_C".
Definition MBEDTLS_PEM_PARSE_C : string := "MBEDTLS_PEM_PARSE_C".
Definition MBEDTLS_ENTROPY_C : string := "MBEDTLS_ENTROPY_C".
Definition MBEDTLS_PK_C : string := "MBEDTLS_PK_C".
Definition MBEDTLS_PKCS12_C : string := "MBEDTLS_PKCS12_C".
Definition MBEDTLS_RSA_C : string := "MBEDTLS_RSA_C".
Definition MBEDTLS_SSL_TLS_C : string := "MBEDTLS_SSL_TLS_C".
Definition MBEDTLS_X509_USE_C : string := "MBEDTLS_X509_USE_C".
Definition MBEDTLS_X509_CREATE_C : string := "MBEDTLS_X509_CREATE_C".
Definition MBEDTLS_ECP_C : string := "MBEDTLS_ECP_C".
Definition MBEDTLS_ECP_LIGHT : string := "MBEDTLS_ECP_LIGHT".
Definition MBEDTLS_PK_PARSE_EC_EXTENDED : string := "MBEDTLS_PK_PARSE_EC_EXTENDED".
Definition MBEDTLS_PK_PARSE_EC_COMPRESSED : string := "MBEDTLS_PK_PARSE_EC_COMPRESSED".
Definition MBEDTLS_PSA_BUILTIN_KEY_TYPE_ECC_KEY_PAIR_DERIVE : string :=
  "MBEDTLS_PSA_BUILTIN_KEY_TYPE_ECC_KEY_PAIR_DERIVE".
Definition MBEDTLS_PK_PARSE_C : string := "MBEDTLS_PK_PARSE_C".
Definition MBEDTLS_USE_PSA_CRYPTO : string := "MBEDTLS_USE_PSA_CRYPTO".
Definition PSA_WANT_ALG_ECDH : string := "PSA_WANT_ALG_ECDH".
Definition MBEDTLS_ECDH_C : string := "MBEDTLS_ECDH_C".
Definition MBEDTLS_CAN_ECDH : string := "MBEDTLS_CAN_ECDH".
Definition MBEDTLS_ECDSA_C : string := "MBEDTLS_ECDSA_C".
Definition MBEDTLS_PK_CAN_ECDSA_SIGN : string := "MBEDTLS_PK_CAN_ECDSA_SIGN".
Definition MBEDTLS_PK_CAN_ECDSA_VERIFY : string := "MBEDTLS_PK_CAN_ECDSA_VERIFY".
Definition PSA_WANT_ALG_ECDSA : string := "PSA_WANT_ALG_ECDSA".
Definition PSA_WANT_KEY_TYPE_ECC_KEY_PAIR_BASIC : string :=
  "PSA_WANT_KEY_TYPE_ECC_KEY_PAIR_BASIC".
Definition PSA_WANT_KEY_TYPE_ECC_PUBLIC_KEY : string :=
  "PSA_WANT_KEY_TYPE_ECC_PUBLIC_KEY".
Definition MBEDTLS_PK_CAN_ECDSA_SOME : string := "MBEDTLS_PK_CAN_ECDSA_SOME".
Definition MBEDTLS_PSA_CRYPTO_C : string := "MBEDTLS_PSA_CRYPTO_C".
Definition MBEDTLS_PSA_CRYPTO_CLIENT : string := "MBEDTLS_PSA_CRYPTO_CLIENT".
Definition MBEDTLS_PK_WRITE_C : string := "MBEDTLS_PK_WRITE_C".
Definition MBEDTLS_PK_HAVE_ECC_KEYS : string := "MBEDTLS_PK_HAVE_ECC_KEYS".

(** The include guard of the header (lines 34-35). *)
Definition MBEDTLS_CONFIG_ADJUST_LEGACY_CRYPTO_H : string :=
  "MBEDTLS_CONFIG_ADJUST_LEGACY_CRYPTO_H".

End Flag.

Import Flag.

(** ** The preprocessor's macro table

    Only object-like macros without a body occur, and the header only asks
    whether a macro is defined: the table is the set of defined names. *)

(** [defined(M)] inside an [#if]. *)
Definition defined (m : string) (e : gset string) : bool := bool_decide (m ∈ e).

(** [#define M]; there is no [#undef] in the header. *)
Definition define (m : string) (e : gset string) : gset string := {[m]} ∪ e.

(** ** The header, block by block (shallow embedding)

    Each function is one top-level [#if ... #endif] block, named by the line
    of its [#if]. *)

(** Lines 40-42. *)
Definition block_40 (e : gset string) : gset string :=
  if defined MBEDTLS_MD_C e then define MBEDTLS_MD_LIGHT e else e.

(** Lines 47-57. *)
Definition block_47 (e : gset string) : gset string :=
  if defined MBEDTLS_ECJPAKE_C e
     || defined MBEDTLS_PEM_PARSE_C e
     || defined MBEDTLS_ENTROPY_C e
     || defined MBEDTLS_PK_C e
     || defined MBEDTLS_PKCS12_C e
     || defined MBEDTLS_RSA_C e
     || defined MBEDTLS_SSL_TLS_C e
     || defined MBEDTLS_X509_USE_C e
     || defined MBEDTLS_X509_CREATE_C e
  then define MBEDTLS_MD_LIGHT e else e.

(** Lines 75-80. *)
Definition block_75 (e : gset string) : gset string :=
  if defined MBEDTLS_ECP_C e
     || defined MBEDTLS_PK_PARSE_EC_EXTENDED e
     || defined MBEDTLS_PK_PARSE_EC_COMPRESSED e
     || defined MBEDTLS_PSA_BUILTIN_KEY_TYPE_ECC_KEY_PAIR_DERIVE e
  then define MBEDTLS_ECP_LIGHT e else e.

(** Lines 87-89. *)
Definition block_87 (e : gset string) : gset string :=
  if defined MBEDTLS_PK_PARSE_C e && defined MBEDTLS_ECP_C e
  then define MBEDTLS_PK_PARSE_EC_COMPRESSED e else e.

(** Lines 93-96. *)
Definition block_93 (e : gset string) : gset string :=
  if (defined MBEDTLS_USE_PSA_CRYPTO e && defined PSA_WANT_ALG_ECDH e)
     || (negb (defined MBEDTLS_USE_PSA_CRYPTO e) && defined MBEDTLS_ECDH_C e)
  then define MBEDTLS_CAN_ECDH e else e.

(** Lines 102-116: the only nested block, with an [#else]. *)
Definition block_102 (e : gset string) : gset string :=
  if negb (defined MBEDTLS_USE_PSA_CRYPTO e) then
    if defined MBEDTLS_ECDSA_C e then
      define MBEDTLS_PK_CAN_ECDSA_VERIFY (define MBEDTLS_PK_CAN_ECDSA_SIGN e)
    else e
  else
    if defined PSA_WANT_ALG_ECDSA e then
      let e1 :=
        if defined PSA_WANT_KEY_TYPE_ECC_KEY_PAIR_BASIC e
        then define MBEDTLS_PK_CAN_ECDSA_SIGN e else e in
      if defined PSA_WANT_KEY_TYPE_ECC_PUBLIC_KEY e1
      then define MBEDTLS_PK_CAN_ECDSA_VERIFY e1 else e1
    else e.

(** Lines 118-120. *)
Definition block_118 (e : gset string) : gset string :=
  if defined MBEDTLS_PK_CAN_ECDSA_VERIFY e || defined MBEDTLS_PK_CAN_ECDSA_SIGN e
  then define MBEDTLS_PK_CAN_ECDSA_SOME e else e.

(** Lines 125-127. *)
Definition block_125 (e : gset string) : gset string :=
  if defined MBEDTLS_PSA_CRYPTO_C e then define MBEDTLS_PSA_CRYPTO_CLIENT e else e.

(** Lines 132-136. *)
Definition block_132 (e : gset string) : gset string :=
  if defined MBEDTLS_PSA_CRYPTO_C e && defined MBEDTLS_RSA_C e then
    define MBEDTLS_PK_PARSE_C (define MBEDTLS_PK_WRITE_C (define MBEDTLS_PK_C e))
  else e.

(** Lines 141-144. *)
Definition block_141 (e : gset string) : gset string :=
  if defined MBEDTLS_ECP_C e
     || (defined MBEDTLS_USE_PSA_CRYPTO e
         && defined PSA_WANT_KEY_TYPE_ECC_PUBLIC_KEY e)
  then define MBEDTLS_PK_HAVE_ECC_KEYS e else e.

(** Lines 37-144: the blocks in textual order. *)
Definition adjust_legacy_crypto (e : gset string) : gset string :=
  let e := block_40 e in
  let e := block_47 e in
  let e := block_75 e in
  let e := block_87 e in
  let e := block_93 e in
  let e := block_102 e in
  let e := block_118 e in
  let e := block_125 e in
  let e := block_132 e in
  block_141 e.

(** The whole file, lines 34-146: the body under its include guard. *)
Definition config_adjust_legacy_crypto_h (e : gset string) : gset string :=
  if negb (defined MBEDTLS_CONFIG_ADJUST_LEGACY_CRYPTO_H e) then
    adjust_legacy_crypto (define MBEDTLS_CONFIG_ADJUST_LEGACY_CRYPTO_H e)
  else e.

(** The resolution of a base flag set: the macros defined once the blocks of
    lines 37-144 have been read. *)
Definition resolve (base : gset string) : gset string :=
  adjust_legacy_crypto base.

(** What reading the header can produce.  A translation stops with a
    diagnostic only at an [#error] directive; the header has none, so the
    second alternative is never produced. *)
Inductive outcome : Type :=
  | Resolved (e : gset string)
  | ConfigError (msg : string).

Definition resolve_outcome (base : gset string) : outcome :=
  Resolved (resolve base).

(** ** The blocks as a rule table *)

(** An [#if] condition over [defined(...)], [&&], [||] and [!]. *)
Inductive Pred : Type :=
  | PFlag (f : string)
  | PAnd (p q : Pred)
  | POr (p q : Pred)
  | PNot (p : Pred).

(** A condition and the macro defined under it. *)
Record Rule : Type := mkRule { pred : Pred; consequent : string }.

Fixpoint eval (p : Pred) (e : gset string) : bool :=
  match p with
  | PFlag f => defined f e
  | PAnd p q => eval p e && eval q e
  | POr p q => eval p e || eval q e
  | PNot p => negb (eval p e)
  end.

(** The macros a condition reads. *)
Fixpoint flags (p : Pred) : list string :=
  match p with
  | PFlag f => [f]
  | PAnd p q | POr p q => (flags p ++ flags q)%list
  | PNot p => flags p
  end.

(** [defined(f) || defined(g1) || ...] and [defined(f) && defined(g1) && ...],
    associated to the left as the preprocessor reads them. *)
Definition any_of (f : string) (gs : list string) : Pred :=
  foldl (fun p g => POr p (PFlag g)) (PFlag f) gs.

Definition all_of (f : string) (gs : list string) : Pred :=
  foldl (fun p g => PAnd p (PFlag g)) (PFlag f) gs.

(** The rules in textual order.  A block with several [#define]s gives one
    rule per macro; the nested block of lines 102-116 gives one rule per
    [#define], whose condition is the conjunction of the enclosing ones. *)
Definition rules : list Rule :=
  [ mkRule (PFlag MBEDTLS_MD_C) MBEDTLS_MD_LIGHT;
    mkRule (any_of MBEDTLS_ECJPAKE_C
              [MBEDTLS_PEM_PARSE_C; MBEDTLS_ENTROPY_C; MBEDTLS_PK_C;
               MBEDTLS_PKCS12_C; MBEDTLS_RSA_C; MBEDTLS_SSL_TLS_C;
               MBEDTLS_X509_USE_C; MBEDTLS_X509_CREATE_C])
           MBEDTLS_MD_LIGHT;
    mkRule (any_of MBEDTLS_ECP_C
              [MBEDTLS_PK_PARSE_EC_EXTENDED; MBEDTLS_PK_PARSE_EC_COMPRESSED;
               MBEDTLS_PSA_BUILTIN_KEY_TYPE_ECC_KEY_PAIR_DERIVE])
           MBEDTLS_ECP_LIGHT;
    mkRule (all_of MBEDTLS_PK_PARSE_C [MBEDTLS_ECP_C])
           MBEDTLS_PK_PARSE_EC_COMPRESSED;
    mkRule (POr (PAnd (PFlag MBEDTLS_USE_PSA_CRYPTO) (PFlag PSA_WANT_ALG_ECDH))
                (PAnd (PNot (PFlag MBEDTLS_USE_PSA_CRYPTO))
                      (PFlag MBEDTLS_ECDH_C)))
           MBEDTLS_CAN_ECDH;
    mkRule (PAnd (PNot (PFlag MBEDTLS_USE_PSA_CRYPTO)) (PFlag MBEDTLS_ECDSA_C))
           MBEDTLS_PK_CAN_ECDSA_SIGN;
    mkRule (PAnd (PNot (PFlag MBEDTLS_USE_PSA_CRYPTO)) (PFlag MBEDTLS_ECDSA_C))
           MBEDTLS_PK_CAN_ECDSA_VERIFY;
    mkRule (all_of MBEDTLS_USE_PSA_CRYPTO
              [PSA_WANT_ALG_ECDSA; PSA_WANT_KEY_TYPE_ECC_KEY_PAIR_BASIC])
           MBEDTLS_PK_CAN_ECDSA_SIGN;
    mkRule (all_of MBEDTLS_USE_PSA_CRYPTO
              [PSA_WANT_ALG_ECDSA; PSA_WANT_KEY_TYPE_ECC_PUBLIC_KEY])
           MBEDTLS_PK_CAN_ECDSA_VERIFY;
    mkRule (any_of MBEDTLS_PK_CAN_ECDSA_VERIFY [MBEDTLS_PK_CAN_ECDSA_SIGN])
           MBEDTLS_PK_CAN_ECDSA_SOME;
    mkRule (PFlag MBEDTLS_PSA_CRYPTO_C) MBEDTLS_PSA_CRYPTO_CLIENT;
    mkRule (all_of MBEDTLS_PSA_CRYPTO_C [MBEDTLS_RSA_C]) MBEDTLS_PK_C;
    mkRule (all_of MBEDTLS_PSA_CRYPTO_C [MBEDTLS_RSA_C]) MBEDTLS_PK_WRITE_C;
    mkRule (all_of MBEDTLS_PSA_CRYPTO_C [MBEDTLS_RSA_C]) MBEDTLS_PK_PARSE_C;
    mkRule (POr (PFlag MBEDTLS_ECP_C)
                (PAnd (PFlag MBEDTLS_USE_PSA_CRYPTO)
                      (PFlag PSA_WANT_KEY_TYPE_ECC_PUBLIC_KEY)))
           MBEDTLS_PK_HAVE_ECC_KEYS ].

(** One rule: [#if pred / #define consequent / #endif]. *)
Definition fire (r : Rule) (e : gset string) : gset string :=
  if eval (pred r) e then define (consequent r) e else e.

(** One pass over a list of rules, in the order of the list. *)
Definition pass (rs : list Rule) (e : gset string) : gset string :=
  foldl (fun acc r => fire r acc) e rs.

(** The macros some rule defines, and every macro the table mentions. *)
Definition consequents (rs : list Rule) : list string := map consequent rs.

Definition vocabulary : list string :=
  remove_dups (flat_map (fun r => (flags (pred r) ++ [consequent r])%list) rules).

(** Parallel step: every rule is evaluated against the same set [e]. *)
Definition step (e : gset string) : gset string :=
  list_to_set (consequents (List.filter (fun r => eval (pred r) e) rules)) ∪ e.

(** The closure of a base set under the rule table: [reach base s] when [s]
    is obtained from [base] by a chain of rule applications, each rule being
    applied where its condition holds. *)
Inductive reach (base : gset string) : gset string -> Prop :=
  | reach_base : reach base base
  | reach_fire (r : Rule) (s : gset string) :
      reach base s -> In r rules -> eval (pred r) s = true ->
      reach base (define (consequent r) s).

(** A flag is implied by [base] when some chain of rules makes it active. *)
Definition implied (base : gset string) (f : string) : Prop :=
  exists s, reach base s /\ f ∈ s.

(** A set is closed when no rule can add anything to it. *)
Definition closed (rs : list Rule) (c : gset string) : Prop :=
  forall r, In r rs -> eval (pred r) c = true -> consequent r ∈ c.

(** The rule of line 118 moved in front of every other rule. *)
Definition rules_some_first : list Rule :=
  mkRule (any_of MBEDTLS_PK_CAN_ECDSA_VERIFY [MBEDTLS_PK_CAN_ECDSA_SIGN])
         MBEDTLS_PK_CAN_ECDSA_SOME
  :: (firstn 9 rules ++ skipn 10 rules)%list.

(** [nots_only_on u p]: every negation in [p] is [!defined(u)]. *)
Fixpoint nots_only_on (u : string) (p : Pred) : bool :=
  match p with
  | PFlag _ => true
  | PAnd p q | POr p q => nots_only_on u p && nots_only_on u q
  | PNot (PFlag f) => String.eqb f u
  | PNot _ => false
  end.

(** A rule whose only negated macro is [u] and which does not define [u]. *)
Definition guarded (u : string) (r : Rule) : Prop :=
  nots_only_on u (pred r) = true /\ consequent r <> u.

(** [below u e e']: [e'] has every macro of [e], and [u] only if [e] has it. *)
Definition below (u : string) (e e' : gset string) : Prop :=
  e ⊆ e' /\ (u ∈ e' -> u ∈ e).

(** Modelled from the spec: the fixed-point loop of section 4.2 with the
    pass bound of section 7, which the header does not contain (the
    preprocessor reads it once).  A pass is [pass rules]; the loop stops at
    the first pass that changes nothing and returns the number of passes that
    made progress, or [None] when [fuel] passes were not enough. *)
Fixpoint resolve_loop (fuel : nat) (e : gset string) : option (nat * gset string) :=
  match fuel with
  | O => None
  | S k =>
      let e' := pass rules e in
      if decide (e' = e) then Some (O, e)
      else match resolve_loop k e' with
           | Some (n, out) => Some (S n, out)
           | None => None
           end
  end.

(** Modelled from the spec: the same loop with the rules read in the
    order [rs] at every pass (spec section 4.2, "the order rules are
    evaluated within a pass").  [resolve_loop] is the loop for the textual
    order. *)
Fixpoint resolve_loop_in (rs : list Rule) (fuel : nat) (e : gset string)
  : option (nat * gset string) :=
  match fuel with
  | O => None
  | S k =>
      let e' := pass rs e in
      if decide (e' = e) then Some (O, e)
      else match resolve_loop_in rs k e' with
           | Some (n, out) => Some (S n, out)
           | None => None
           end
  end.

(** ** Membership view

    A macro table seen as its characteristic function; the rules act on it
    by boolean formulas, which is what the table-specific facts compute
    with. *)

Definition mem (e : gset string) : string -> bool := fun x => defined x e.

Fixpoint evalb (p : Pred) (m : string -> bool) : bool :=
  match p with
  | PFlag f => m f
  | PAnd p q => evalb p m && evalb q m
  | POr p q => evalb p m || evalb q m
  | PNot p => negb (evalb p m)
  end.

Definition fireb (r : Rule) (m : string -> bool) : string -> bool :=
  fun x => if String.eqb x (consequent r) then m x || evalb (pred r) m else m x.

Definition passb (rs : list Rule) (m : string -> bool) : string -> bool :=
  foldl (fun acc r => fireb r acc) m rs.

Definition stepb (m : string -> bool) : string -> bool :=
  fun x => m x || existsb (fun r => String.eqb x (consequent r) && evalb (pred r) m) rules.

(** The input on which the textual order loses a macro: the three options
    are active and neither [MBEDTLS_PK_PARSE_C] nor
    [MBEDTLS_PK_PARSE_EC_COMPRESSED] is. *)
Definition late_pk_parse (m : string -> bool) : bool :=
  m MBEDTLS_PSA_CRYPTO_C && m MBEDTLS_RSA_C && m MBEDTLS_ECP_C
  && negb (m MBEDTLS_PK_PARSE_C) && negb (m MBEDTLS_PK_PARSE_EC_COMPRESSED).

(** Case analysis on the atoms [m "..."] of a boolean goal, outermost first. *)
Ltac split_atoms m :=
  repeat match goal with
         | |- context [m ?s] => destruct (m s); cbv beta iota; try reflexivity
         end;
  try reflexivity; try discriminate.

(** A disequality, or a membership, between constants. *)
Ltac const_done := first [ compute_done | done ].

(** ** The macro table *)

Lemma vocabulary_size : length vocabulary = 32.
Proof. vm_compute. reflexivity. Qed.

Lemma defined_true (m : string) (e : gset string) : defined m e = true <-> m ∈ e.
Proof. unfold defined. apply bool_decide_eq_true. Qed.

Lemma defined_false (m : string) (e : gset string) : defined m e = false <-> m ∉ e.
Proof. unfold defined. apply bool_decide_eq_false. Qed.

Lemma elem_of_define (x m : string) (e : gset string) :
  x ∈ define m e <-> x = m \/ x ∈ e.
Proof. unfold define. set_solver. Qed.

Lemma define_subseteq (m : string) (e : gset string) : e ⊆ define m e.
Proof. unfold define. set_solver. Qed.

Lemma define_absorb (m : string) (e : gset string) : m ∈ e -> define m e = e.
Proof.
  intros Hm. apply set_eq. intros x. rewrite elem_of_define. naive_solver.
Qed.

Lemma defined_define (x m : string) (e : gset string) :
  defined x (define m e) = String.eqb x m || defined x e.
Proof.
  apply eq_true_iff_eq. rewrite orb_true_iff, !defined_true, elem_of_define.
  by rewrite String.eqb_eq.
Qed.

Lemma defined_define_ne (x m : string) (e : gset string) :
  x <> m -> defined x (define m e) = defined x e.
Proof.
  intros Hne. rewrite defined_define.
  apply String.eqb_neq in Hne. by rewrite Hne.
Qed.

(** ** The rule table is the header *)

Ltac skip_defines := repeat rewrite defined_define_ne by const_done.

Lemma fire_true (r : Rule) (e : gset string) :
  eval (pred r) e = true -> fire r e = define (consequent r) e.
Proof. unfold fire. by intros ->. Qed.

Lemma fire_false (r : Rule) (e : gset string) :
  eval (pred r) e = false -> fire r e = e.
Proof. unfold fire. by intros ->. Qed.

(** Decide the innermost [fire] of the goal from equations [defined M e = b]
    in the context. *)
Ltac eval_here :=
  cbn [eval pred consequent all_of any_of foldl]; skip_defines;
  repeat match goal with H : defined _ _ = _ |- _ => rewrite H end;
  reflexivity.

Ltac fire_inner :=
  match goal with
  | |- context [fire ?r ?s] =>
      lazymatch s with
      | context [fire _ _] => fail
      | _ => first [ rewrite (fire_true r s) by eval_here
                   | rewrite (fire_false r s) by eval_here ]
      end
  end; cbn [consequent].

Lemma block_102_rules (e : gset string) :
  block_102 e =
  pass [ mkRule (PAnd (PNot (PFlag MBEDTLS_USE_PSA_CRYPTO)) (PFlag MBEDTLS_ECDSA_C))
                MBEDTLS_PK_CAN_ECDSA_SIGN;
         mkRule (PAnd (PNot (PFlag MBEDTLS_USE_PSA_CRYPTO)) (PFlag MBEDTLS_ECDSA_C))
                MBEDTLS_PK_CAN_ECDSA_VERIFY;
         mkRule (all_of MBEDTLS_USE_PSA_CRYPTO
                   [PSA_WANT_ALG_ECDSA; PSA_WANT_KEY_TYPE_ECC_KEY_PAIR_BASIC])
                MBEDTLS_PK_CAN_ECDSA_SIGN;
         mkRule (all_of MBEDTLS_USE_PSA_CRYPTO
                   [PSA_WANT_ALG_ECDSA; PSA_WANT_KEY_TYPE_ECC_PUBLIC_KEY])
                MBEDTLS_PK_CAN_ECDSA_VERIFY ] e.
Proof.
  unfold pass; cbn [foldl].
  destruct (defined MBEDTLS_USE_PSA_CRYPTO e) eqn:HU;
    destruct (defined MBEDTLS_ECDSA_C e) eqn:HE;
    destruct (defined PSA_WANT_ALG_ECDSA e) eqn:HA;
    destruct (defined PSA_WANT_KEY_TYPE_ECC_KEY_PAIR_BASIC e) eqn:HB;
    destruct (defined PSA_WANT_KEY_TYPE_ECC_PUBLIC_KEY e) eqn:HP.
  all: do 4 fire_inner.
  all: unfold block_102; rewrite ?HU, ?HE, ?HA, ?HB; cbn [negb]; cbv iota;
    skip_defines; rewrite ?HP; reflexivity.
Qed.

Lemma block_132_rules (e : gset string) :
  block_132 e =
  pass [ mkRule (all_of MBEDTLS_PSA_CRYPTO_C [MBEDTLS_RSA_C]) MBEDTLS_PK_C;
         mkRule (all_of MBEDTLS_PSA_CRYPTO_C
                   [MBEDTLS_RSA_C]) MBEDTLS_PK_WRITE_C;
         mkRule (all_of MBEDTLS_PSA_CRYPTO_C
                   [MBEDTLS_RSA_C]) MBEDTLS_PK_PARSE_C ] e.
Proof.
  unfold pass; cbn [foldl].
  destruct (defined MBEDTLS_PSA_CRYPTO_C e) eqn:HP;
    destruct (defined MBEDTLS_RSA_C e) eqn:HR.
  all: do 3 fire_inner.
  all: unfold block_132; rewrite ?HP, ?HR; reflexivity.
Qed.

Lemma pass_app (rs1 rs2 : list Rule) (e : gset string) :
  pass (rs1 ++ rs2) e = pass rs2 (pass rs1 e).
Proof. unfold pass. apply foldl_app. Qed.

Lemma pass_cons (r : Rule) (rs : list Rule) (e : gset string) :
  pass (r :: rs) e = pass rs (fire r e).
Proof. reflexivity. Qed.

Lemma pass_nil (e : gset string) : pass [] e = e.
Proof. reflexivity. Qed.

Lemma block_40_rule (e : gset string) : block_40 e = pass (firstn 1 rules) e.
Proof. reflexivity. Qed.
Lemma block_47_rule (e : gset string) : block_47 e = pass (firstn 1 (skipn 1 rules)) e.
Proof. reflexivity. Qed.
Lemma block_75_rule (e : gset string) : block_75 e = pass (firstn 1 (skipn 2 rules)) e.
Proof. reflexivity. Qed.
Lemma block_87_rule (e : gset string) : block_87 e = pass (firstn 1 (skipn 3 rules)) e.
Proof. reflexivity. Qed.
Lemma block_93_rule (e : gset string) : block_93 e = pass (firstn 1 (skipn 4 rules)) e.
Proof. reflexivity. Qed.
Lemma block_118_rule (e : gset string) : block_118 e = pass (firstn 1 (skipn 9 rules)) e.
Proof. reflexivity. Qed.
Lemma block_125_rule (e : gset string) : block_125 e = pass (firstn 1 (skipn 10 rules)) e.
Proof. reflexivity. Qed.
Lemma block_141_rule (e : gset string) : block_141 e = pass (skipn 14 rules) e.
Proof. reflexivity. Qed.

(** One pass over the table in textual order is the header's body. *)
Lemma adjust_legacy_crypto_pass (e : gset string) :
  adjust_legacy_crypto e = pass rules e.
Proof.
  transitivity
    (pass (skipn 14 rules)
       (pass (firstn 3 (skipn 11 rules))
          (pass (firstn 1 (skipn 10 rules))
             (pass (firstn 1 (skipn 9 rules))
                (pass (firstn 4 (skipn 5 rules))
                   (pass (firstn 1 (skipn 4 rules))
                      (pass (firstn 1 (skipn 3 rules))
                         (pass (firstn 1 (skipn 2 rules))
                            (pass (firstn 1 (skipn 1 rules))
                               (pass (firstn 1 rules) e)))))))))).
  - unfold adjust_legacy_crypto; cbv zeta.
    etransitivity; [apply block_141_rule | apply (f_equal (pass _))].
    etransitivity; [apply block_132_rules | apply (f_equal (pass _))].
    etransitivity; [apply block_125_rule | apply (f_equal (pass _))].
    etransitivity; [apply block_118_rule | apply (f_equal (pass _))].
    etransitivity; [apply block_102_rules | apply (f_equal (pass _))].
    etransitivity; [apply block_93_rule | apply (f_equal (pass _))].
    etransitivity; [apply block_87_rule | apply (f_equal (pass _))].
    etransitivity; [apply block_75_rule | apply (f_equal (pass _))].
    etransitivity; [apply block_47_rule | apply (f_equal (pass _))].
    apply block_40_rule.
  - rewrite <- !pass_app. apply (f_equal (fun l => pass l e)). reflexivity.
Qed.

Lemma resolve_pass (base : gset string) : resolve base = pass rules base.
Proof. apply adjust_legacy_crypto_pass. Qed.

(** ** One rule, one pass: generic facts *)

Section Generic.

Implicit Types (r : Rule) (rs : list Rule) (e c : gset string) (p : Pred).

Lemma elem_of_fire r e x :
  x ∈ fire r e <-> x ∈ e \/ (x = consequent r /\ eval (pred r) e = true).
Proof.
  unfold fire. destruct (eval (pred r) e).
  - rewrite elem_of_define. naive_solver.
  - naive_solver.
Qed.

Lemma fire_subseteq r e : e ⊆ fire r e.
Proof. intros x Hx. apply elem_of_fire. by left. Qed.

(** Activation is one-directional: a pass only adds macros. *)
Lemma pass_subseteq rs e : e ⊆ pass rs e.
Proof.
  revert e. induction rs as [|r rs IH]; intros e; [done|].
  rewrite pass_cons. etrans; [apply (fire_subseteq r)|apply IH].
Qed.

(** What a pass adds is the consequent of one of its rules. *)
Lemma pass_elem rs e x : x ∈ pass rs e -> x ∈ e \/ In x (consequents rs).
Proof.
  revert e. induction rs as [|r rs IH]; intros e; [by left|].
  rewrite pass_cons. intros [Hx|Hx]%IH.
  - apply elem_of_fire in Hx as [Hx|[-> _]]; [by left|right; by left].
  - right; by right.
Qed.

(** A macro no rule defines keeps the state it has in the input. *)
Lemma pass_frame rs e x :
  ~ In x (consequents rs) -> (x ∈ pass rs e <-> x ∈ e).
Proof.
  intros Hx. split.
  - intros [H|H]%pass_elem; [done|by destruct Hx].
  - apply pass_subseteq.
Qed.

(** A condition only depends on the macros it reads. *)
Lemma eval_frame p u e : ~ In u (flags p) -> eval p (define u e) = eval p e.
Proof.
  induction p as [f|p IHp q IHq|p IHp q IHq|p IHp]; cbn [eval flags]; intros Hu.
  - apply defined_define_ne. intros ->. apply Hu. by left.
  - rewrite IHp, IHq; [done| |]; intros H; apply Hu, in_or_app; auto.
  - rewrite IHp, IHq; [done| |]; intros H; apply Hu, in_or_app; auto.
  - by rewrite IHp.
Qed.

Lemma define_comm (a b : string) e : define a (define b e) = define b (define a e).
Proof. unfold define. set_solver. Qed.

Lemma fire_frame r u e :
  ~ In u (flags (pred r)) -> fire r (define u e) = define u (fire r e).
Proof.
  intros Hu. unfold fire. rewrite eval_frame by done.
  destruct (eval (pred r) e); [apply define_comm|done].
Qed.

Lemma pass_frame_define rs u e :
  (forall r, In r rs -> ~ In u (flags (pred r))) ->
  pass rs (define u e) = define u (pass rs e).
Proof.
  revert e. induction rs as [|r rs IH]; intros e Hu; [done|].
  rewrite !pass_cons, fire_frame by (apply Hu; by left).
  apply IH. intros r' Hr'. apply Hu. by right.
Qed.

(** *** Monotonicity where the negated macro does not change *)

Lemma below_refl u e : below u e e.
Proof. by split. Qed.

Lemma below_trans u e1 e2 e3 : below u e1 e2 -> below u e2 e3 -> below u e1 e3.
Proof. intros [H1 H1'] [H2 H2']. split; [set_solver|auto]. Qed.

Lemma eval_mono u p e e' :
  nots_only_on u p = true -> below u e e' ->
  eval p e = true -> eval p e' = true.
Proof.
  intros Hp [Hsub Hu].
  induction p as [f|p IHp q IHq|p IHp q IHq|p IHp]; cbn [eval nots_only_on] in *.
  - rewrite !defined_true. apply Hsub.
  - apply andb_true_iff in Hp as [??].
    rewrite !andb_true_iff. intros [??]. auto.
  - apply andb_true_iff in Hp as [??].
    rewrite !orb_true_iff. intros [?|?]; auto.
  - destruct p as [f| | |]; try discriminate.
    apply String.eqb_eq in Hp as ->. cbn [eval].
    rewrite !negb_true_iff, !defined_false. auto.
Qed.

Lemma below_fire u r e : consequent r <> u -> below u e (fire r e).
Proof.
  intros Hr. split; [apply fire_subseteq|].
  intros [H|[-> _]]%elem_of_fire; [done|by destruct Hr].
Qed.

Lemma below_pass u rs e : Forall (guarded u) rs -> below u e (pass rs e).
Proof.
  revert e. induction rs as [|r rs IH]; intros e Hg; [apply below_refl|].
  inversion Hg as [|?? [_ Hr] Hg']; subst. rewrite pass_cons.
  eapply below_trans; [by apply below_fire|by apply IH].
Qed.

Lemma fire_mono u r e e' :
  guarded u r -> below u e e' -> below u (fire r e) (fire r e').
Proof.
  intros [Hp Hr] Hb. split.
  - intros x [Hx|[-> Hx]]%elem_of_fire; apply elem_of_fire.
    + left. by apply Hb.
    + right. split; [done|]. by eapply eval_mono.
  - intros [Hu|[-> _]]%elem_of_fire; [|by destruct Hr].
    apply fire_subseteq. by apply Hb.
Qed.

Lemma pass_mono u rs e e' :
  Forall (guarded u) rs -> below u e e' -> below u (pass rs e) (pass rs e').
Proof.
  revert e e'. induction rs as [|r rs IH]; intros e e' Hg Hb; [done|].
  inversion Hg; subst. rewrite !pass_cons. apply IH; [done|].
  by apply fire_mono.
Qed.

(** A pass stays inside any closed set above its input. *)
Lemma pass_below_closed u rs e c :
  Forall (guarded u) rs -> closed rs c -> below u e c -> below u (pass rs e) c.
Proof.
  revert e. induction rs as [|r rs IH]; intros e Hg Hc Hb; [done|].
  inversion Hg as [|?? [Hp Hr] Hg']; subst. rewrite pass_cons.
  apply IH; [done| |].
  - intros r' Hr'. apply Hc. by right.
  - split.
    + intros x [Hx|[-> Hx]]%elem_of_fire; [by apply Hb|].
      apply Hc; [by left|]. by eapply eval_mono.
    + intros Hu. apply fire_subseteq. by apply Hb.
Qed.

(** A rule whose condition holds on the input fires wherever it stands. *)
Lemma pass_fires u rs e0 e r :
  Forall (guarded u) rs -> below u e0 e -> In r rs ->
  eval (pred r) e0 = true -> consequent r ∈ pass rs e.
Proof.
  revert e. induction rs as [|r' rs IH]; intros e Hg Hb Hin Hev; [done|].
  inversion Hg as [|?? [Hp Hr] Hg']; subst. rewrite pass_cons.
  destruct Hin as [->|Hin].
  - apply pass_subseteq, elem_of_fire. right. split; [done|].
    by eapply eval_mono.
  - apply IH; [done| |done|done].
    eapply below_trans; [done|by apply below_fire].
Qed.

End Generic.

(** ** Chains of rule applications *)

Lemma reach_subseteq (base s : gset string) : reach base s -> base ⊆ s.
Proof.
  induction 1 as [|r s _ IH _ _]; [done|].
  etrans; [apply IH|apply define_subseteq].
Qed.

Lemma reach_trans (base s t : gset string) :
  reach base s -> reach s t -> reach base t.
Proof. intros Hs. induction 1; [done|by apply reach_fire]. Qed.

(** A pass over rules of the table is a chain of rule applications. *)
Lemma reach_pass (rs : list Rule) (base s : gset string) :
  (forall r, In r rs -> In r rules) -> reach base s -> reach base (pass rs s).
Proof.
  revert s. induction rs as [|r rs IH]; intros s Hrs Hs; [done|].
  rewrite pass_cons. apply IH; [intros r' Hr'; apply Hrs; by right|].
  unfold fire. destruct (eval (pred r) s) eqn:He; [|done].
  apply reach_fire; [done|apply Hrs; by left|done].
Qed.

(** A chain never leaves a closed set above the base set. *)
Lemma reach_below_closed (u : string) (base s c : gset string) :
  Forall (guarded u) rules -> closed rules c -> below u base c ->
  reach base s -> below u s c.
Proof.
  intros Hg Hc Hb. induction 1 as [|r s Hs IH Hr He].
  - done.
  - split.
    + intros x [->|Hx]%elem_of_define; [|by apply IH].
      apply Hc; [done|]. eapply eval_mono; [|exact IH|done].
      rewrite Forall_forall in Hg. apply list_elem_of_In in Hr. by apply Hg.
    + intros Hu. apply define_subseteq, IH, Hu.
Qed.

(** ** The membership view is exact *)

Lemma eval_evalb (p : Pred) (e : gset string) : eval p e = evalb p (mem e).
Proof.
  induction p as [f|p IHp q IHq|p IHp q IHq|p IHp]; cbn [eval evalb];
    by rewrite ?IHp, ?IHq.
Qed.

Lemma evalb_ext (p : Pred) (m m' : string -> bool) :
  (forall x, m x = m' x) -> evalb p m = evalb p m'.
Proof.
  intros Hm. induction p as [f|p IHp q IHq|p IHp q IHq|p IHp]; cbn [evalb];
    by rewrite ?IHp, ?IHq, ?Hm.
Qed.

Lemma fireb_ext (r : Rule) (m m' : string -> bool) :
  (forall x, m x = m' x) -> forall x, fireb r m x = fireb r m' x.
Proof.
  intros Hm x. unfold fireb. by rewrite (evalb_ext _ m m'), Hm.
Qed.

Lemma passb_ext (rs : list Rule) (m m' : string -> bool) :
  (forall x, m x = m' x) -> forall x, passb rs m x = passb rs m' x.
Proof.
  revert m m'. induction rs as [|r rs IH]; intros m m' Hm; [done|].
  cbn [passb foldl]. apply IH. by apply fireb_ext.
Qed.

Lemma mem_fire (r : Rule) (e : gset string) (x : string) :
  mem (fire r e) x = fireb r (mem e) x.
Proof.
  unfold fireb, fire. rewrite <- eval_evalb. unfold mem.
  destruct (eval (pred r) e).
  - rewrite defined_define. destruct (String.eqb x (consequent r)); cbn.
    + by rewrite orb_true_r.
    + done.
  - destruct (String.eqb x (consequent r)); [by rewrite orb_false_r|done].
Qed.

Lemma mem_pass (rs : list Rule) (e : gset string) (x : string) :
  mem (pass rs e) x = passb rs (mem e) x.
Proof.
  revert e. induction rs as [|r rs IH]; intros e; [done|].
  rewrite pass_cons, IH. cbn [passb foldl].
  apply passb_ext. apply mem_fire.
Qed.

Lemma mem_true (e : gset string) (x : string) : mem e x = true <-> x ∈ e.
Proof. apply defined_true. Qed.

Lemma elem_of_step (e : gset string) (x : string) :
  x ∈ step e <->
  x ∈ e \/ exists r, In r rules /\ eval (pred r) e = true /\ consequent r = x.
Proof.
  unfold step, consequents. generalize rules. intros rs.
  rewrite elem_of_union, elem_of_list_to_set, list_elem_of_In, in_map_iff.
  split.
  - intros [(r & <- & [Hr He]%filter_In)|Hx]; [right; by exists r|by left].
  - intros [Hx|(r & Hr & He & <-)]; [by right|left].
    exists r. split; [done|]. by apply filter_In.
Qed.

Lemma mem_step (e : gset string) (x : string) : mem (step e) x = stepb (mem e) x.
Proof.
  apply eq_true_iff_eq. unfold stepb.
  rewrite orb_true_iff, !mem_true, elem_of_step, existsb_exists.
  generalize rules. intros rs.
  split; (intros [?|(r & Hr & H)]; [by left|right; exists r; split; [done|]]).
  - destruct H as [He <-]. rewrite String.eqb_refl. by rewrite <- eval_evalb.
  - apply andb_true_iff in H as [Hx He]. apply String.eqb_eq in Hx.
    by rewrite eval_evalb.
Qed.

(** ** Facts about this table, by evaluation *)

Lemma rules_guarded : Forall (guarded MBEDTLS_USE_PSA_CRYPTO) rules.
Proof. unfold rules. repeat constructor; compute_done. Qed.

Lemma closedb (m : string -> bool) :
  Forall (fun r => evalb (pred r) (passb rules (passb rules m)) = true ->
                   passb rules (passb rules m) (consequent r) = true) rules.
Proof.
  unfold rules at 1. repeat (constructor; [vm_compute; split_atoms m|]).
  constructor.
Qed.

(** After two passes in textual order, whatever is active is active after
    two parallel steps. *)
Lemma deepb (m : string -> bool) :
  Forall (fun c => passb rules (passb rules m) c = true ->
                   stepb (stepb m) c = true) (consequents rules).
Proof.
  unfold consequents, rules at 1; cbn [map consequent].
  repeat (constructor; [vm_compute; split_atoms m|]).
  constructor.
Qed.

(** Except for two macros, it is even active after one parallel step. *)
Lemma shallowb (m : string -> bool) :
  Forall (fun c => passb rules (passb rules m) c = true ->
                   String.eqb c MBEDTLS_PK_CAN_ECDSA_SOME
                   || String.eqb c MBEDTLS_PK_PARSE_EC_COMPRESSED
                   || stepb m c = true) (consequents rules).
Proof.
  unfold consequents, rules at 1; cbn [map consequent].
  repeat (constructor; [vm_compute; split_atoms m|]).
  constructor.
Qed.

(** A second pass in textual order adds nothing but
    [MBEDTLS_PK_PARSE_EC_COMPRESSED], and only on that input. *)
Lemma second_passb (m : string -> bool) :
  Forall (fun c => passb rules (passb rules m) c =
                   passb rules m c
                   || (String.eqb c MBEDTLS_PK_PARSE_EC_COMPRESSED
                       && late_pk_parse m)) (consequents rules).
Proof.
  unfold consequents, rules at 1; cbn [map consequent].
  repeat (constructor; [vm_compute; split_atoms m|]).
  constructor.
Qed.

(** The two ECDSA capabilities after one pass in textual order. *)
Lemma ecdsa_signb (m : string -> bool) :
  passb rules m MBEDTLS_PK_CAN_ECDSA_SIGN =
  m MBEDTLS_PK_CAN_ECDSA_SIGN
  || (if m MBEDTLS_USE_PSA_CRYPTO
      then m PSA_WANT_ALG_ECDSA && m PSA_WANT_KEY_TYPE_ECC_KEY_PAIR_BASIC
      else m MBEDTLS_ECDSA_C).
Proof. vm_compute; split_atoms m. Qed.

Lemma ecdsa_verifyb (m : string -> bool) :
  passb rules m MBEDTLS_PK_CAN_ECDSA_VERIFY =
  m MBEDTLS_PK_CAN_ECDSA_VERIFY
  || (if m MBEDTLS_USE_PSA_CRYPTO
      then m PSA_WANT_ALG_ECDSA && m PSA_WANT_KEY_TYPE_ECC_PUBLIC_KEY
      else m MBEDTLS_ECDSA_C).
Proof. vm_compute; split_atoms m. Qed.

(** ** From the membership view back to sets *)

Lemma mem_pass2 (rs rs' : list Rule) (e : gset string) (x : string) :
  mem (pass rs (pass rs' e)) x = passb rs (passb rs' (mem e)) x.
Proof. rewrite mem_pass. apply passb_ext. intros y. apply mem_pass. Qed.

Lemma stepb_ext (m m' : string -> bool) :
  (forall x, m x = m' x) -> forall x, stepb m x = stepb m' x.
Proof.
  intros Hm x. unfold stepb. rewrite Hm. f_equal.
  induction rules as [|r rs IH]; [done|]. cbn [existsb].
  by rewrite IH, (evalb_ext _ m m').
Qed.

Lemma mem_step2 (e : gset string) (x : string) :
  mem (step (step e)) x = stepb (stepb (mem e)) x.
Proof.
  rewrite mem_step. apply stepb_ext. intros y. apply mem_step.
Qed.

Lemma elem_of_resolve (base : gset string) (x : string) :
  x ∈ resolve base <-> passb rules (mem base) x = true.
Proof. by rewrite resolve_pass, <- mem_true, mem_pass. Qed.

Lemma elem_of_resolve2 (base : gset string) (x : string) :
  x ∈ resolve (resolve base) <-> passb rules (passb rules (mem base)) x = true.
Proof. by rewrite !resolve_pass, <- mem_true, mem_pass2. Qed.

(** Two passes in textual order give a set no rule can extend. *)
Lemma resolve2_closed (base : gset string) : closed rules (resolve (resolve base)).
Proof.
  intros r Hr He. apply elem_of_resolve2.
  pose proof (closedb (mem base)) as Hc. rewrite Forall_forall in Hc.
  apply Hc; [by apply list_elem_of_In|].
  rewrite eval_evalb, !resolve_pass in He. rewrite <- He.
  apply evalb_ext. intros x. symmetry. apply mem_pass2.
Qed.

Lemma resolve2_in_step2 (base : gset string) :
  resolve (resolve base) ⊆ step (step base).
Proof.
  intros x Hx. pose proof Hx as Hx'. rewrite !resolve_pass in Hx'.
  apply pass_elem in Hx' as [Hx'|Hin].
  - apply pass_elem in Hx' as [Hx'|Hin].
    + apply elem_of_step. left. apply elem_of_step. by left.
    + apply mem_true. rewrite mem_step2.
      pose proof (deepb (mem base)) as Hd. rewrite Forall_forall in Hd.
      apply Hd; [by apply list_elem_of_In|]. by apply elem_of_resolve2.
  - apply mem_true. rewrite mem_step2.
    pose proof (deepb (mem base)) as Hd. rewrite Forall_forall in Hd.
    apply Hd; [by apply list_elem_of_In|]. by apply elem_of_resolve2.
Qed.

Lemma resolve2_shallow (base : gset string) (x : string) :
  x ∈ resolve (resolve base) ->
  x <> MBEDTLS_PK_CAN_ECDSA_SOME -> x <> MBEDTLS_PK_PARSE_EC_COMPRESSED ->
  x ∈ step base.
Proof.
  intros Hx Hs Hc.
  assert (x ∈ base \/ In x (consequents rules)) as [Hb|Hin].
  { rewrite !resolve_pass in Hx.
    apply pass_elem in Hx as [Hx|?]; [|by right].
    apply pass_elem in Hx as [?|?]; [by left|by right]. }
  - apply elem_of_step. by left.
  - pose proof (shallowb (mem base)) as Hd. rewrite Forall_forall in Hd.
    apply list_elem_of_In, Hd in Hin; [|by apply elem_of_resolve2].
    apply String.eqb_neq in Hs, Hc. rewrite Hs, Hc in Hin.
    apply mem_true. by rewrite mem_step.
Qed.

(** What a second pass in textual order adds. *)
Lemma resolve2_second_pass (base : gset string) (x : string) :
  x ∈ resolve (resolve base) <->
  x ∈ resolve base
  \/ (x = MBEDTLS_PK_PARSE_EC_COMPRESSED /\ late_pk_parse (mem base) = true).
Proof.
  split.
  - intros Hx.
    assert (x ∈ base \/ In x (consequents rules)) as [Hb|Hin].
    { pose proof Hx as Hx'. rewrite !resolve_pass in Hx'.
      apply pass_elem in Hx' as [Hx'|?]; [|by right].
      apply pass_elem in Hx' as [?|?]; [by left|by right]. }
    + left. rewrite resolve_pass. by apply pass_subseteq.
    + pose proof (second_passb (mem base)) as Hd. rewrite Forall_forall in Hd.
      apply list_elem_of_In, Hd in Hin.
      apply elem_of_resolve2 in Hx. rewrite Hin in Hx.
      apply orb_true_iff in Hx as [Hx|Hx].
      * left. by apply elem_of_resolve.
      * right. apply andb_true_iff in Hx as [Hx ?].
        by apply String.eqb_eq in Hx.
  - intros [Hx|[-> Hl]].
    + rewrite (resolve_pass (resolve base)). by apply pass_subseteq.
    + apply elem_of_resolve2.
      pose proof (second_passb (mem base)) as Hd. rewrite Forall_forall in Hd.
      rewrite (Hd MBEDTLS_PK_PARSE_EC_COMPRESSED) by compute_done.
      rewrite Hl, String.eqb_refl. apply orb_true_r.
Qed.

(** ** Any evaluation order *)

Section AnyOrder.

Variable rs : list Rule.
Hypothesis rs_perm : Permutation rs rules.

Lemma perm_in (r : Rule) : In r rs <-> In r rules.
Proof.
  split; apply Permutation_in; [done|by apply Permutation_sym].
Qed.

Lemma perm_guarded : Forall (guarded MBEDTLS_USE_PSA_CRYPTO) rs.
Proof.
  eapply Permutation_Forall; [apply Permutation_sym, rs_perm|apply rules_guarded].
Qed.

Lemma perm_closed (c : gset string) : closed rules c -> closed rs c.
Proof. intros Hc r Hr. apply Hc. by apply perm_in. Qed.

(** One pass in any order contains the parallel step... *)
Lemma step_subseteq_pass (e : gset string) : step e ⊆ pass rs e.
Proof.
  intros x [Hx|(r & Hr & He & <-)]%elem_of_step; [by apply pass_subseteq|].
  eapply pass_fires; [apply perm_guarded|apply below_refl|by apply perm_in|done].
Qed.

(** ... and stays inside two passes in textual order. *)
Lemma pass_subseteq_resolve2 (e : gset string) :
  below MBEDTLS_USE_PSA_CRYPTO (pass rs e) (resolve (resolve e)).
Proof.
  apply pass_below_closed;
    [apply perm_guarded|apply perm_closed, resolve2_closed|].
  rewrite !resolve_pass.
  eapply below_trans; apply below_pass, rules_guarded.
Qed.

End AnyOrder.

Lemma step_mono (e e' : gset string) :
  below MBEDTLS_USE_PSA_CRYPTO e e' -> step e ⊆ step e'.
Proof.
  intros Hb x [Hx|(r & Hr & He & <-)]%elem_of_step; apply elem_of_step.
  - left. by apply Hb.
  - right. exists r. split; [done|]. split; [|done].
    eapply eval_mono; [|exact Hb|done].
    pose proof rules_guarded as Hg. rewrite Forall_forall in Hg.
    by apply Hg, list_elem_of_In.
Qed.

Lemma pass_closed (rs : list Rule) (c : gset string) :
  closed rs c -> pass rs c = c.
Proof.
  induction rs as [|r rs IH]; intros Hc; [done|].
  rewrite pass_cons. unfold fire.
  destruct (eval (pred r) c) eqn:He.
  - rewrite define_absorb by (apply Hc; [by left|done]).
    apply IH. intros r' Hr'. apply Hc. by right.
  - apply IH. intros r' Hr'. apply Hc. by right.
Qed.

(** Two passes in any order reach what two passes in textual order reach. *)
Lemma two_passes_any_order (rs : list Rule) (e : gset string) :
  Permutation rs rules -> pass rs (pass rs e) = resolve (resolve e).
Proof.
  intros Hp. apply set_eq. intros x. split.
  - intros Hx.
    assert (below MBEDTLS_USE_PSA_CRYPTO (pass rs (pass rs e))
              (resolve (resolve e))) as [Hsub _]; [|by apply Hsub].
    apply pass_below_closed;
      [by apply perm_guarded|by apply perm_closed, resolve2_closed|].
    by apply pass_subseteq_resolve2.
  - intros Hx%resolve2_in_step2.
    apply (step_subseteq_pass rs Hp).
    eapply step_mono; [|exact Hx]. split.
    + apply (step_subseteq_pass rs Hp).
    + intros Hu. apply elem_of_step. left.
      by apply (below_pass _ rs e (perm_guarded rs Hp)).
Qed.

(** The closure is what two passes in textual order compute. *)
Lemma implied_resolve2 (base : gset string) (f : string) :
  implied base f <-> f ∈ resolve (resolve base).
Proof.
  split.
  - intros (s & Hs & Hf).
    eapply reach_below_closed in Hs;
      [by apply Hs|apply rules_guarded|apply resolve2_closed|].
    rewrite !resolve_pass.
    eapply below_trans; apply below_pass, rules_guarded.
  - intros Hf. exists (resolve (resolve base)). split; [|done].
    rewrite !resolve_pass. do 2 (apply reach_pass; [done|]). apply reach_base.
Qed.

(** One pass never activates a flag outside the closure. *)
Lemma resolve_sound (base : gset string) (f : string) :
  f ∈ resolve base -> implied base f.
Proof.
  intros Hf. exists (resolve base). split; [|done].
  rewrite resolve_pass. apply reach_pass; [done|apply reach_base].
Qed.

(** ** The include guard *)

Lemma config_adjust_legacy_crypto_h_first (e : gset string) :
  MBEDTLS_CONFIG_ADJUST_LEGACY_CRYPTO_H ∉ e ->
  config_adjust_legacy_crypto_h e =
  define MBEDTLS_CONFIG_ADJUST_LEGACY_CRYPTO_H (resolve e).
Proof.
  intros Hg%defined_false. unfold config_adjust_legacy_crypto_h, resolve.
  rewrite Hg. cbn [negb]. rewrite !adjust_legacy_crypto_pass.
  assert (Forall (fun r => MBEDTLS_CONFIG_ADJUST_LEGACY_CRYPTO_H ∉ flags (pred r))
            rules) as Hall
    by (unfold rules; repeat constructor; compute_done).
  rewrite Forall_forall in Hall.
  apply pass_frame_define. intros r Hr%list_elem_of_In Hin%list_elem_of_In.
  by apply (Hall r).
Qed.

Lemma config_adjust_legacy_crypto_h_guarded (e : gset string) :
  MBEDTLS_CONFIG_ADJUST_LEGACY_CRYPTO_H ∈ e -> config_adjust_legacy_crypto_h e = e.
Proof.
  intros Hg%defined_true. unfold config_adjust_legacy_crypto_h.
  rewrite Hg. reflexivity.
Qed.

(** Including the header a second time in the same translation unit does
    nothing. *)
Lemma config_adjust_legacy_crypto_h_twice (e : gset string) :
  config_adjust_legacy_crypto_h (config_adjust_legacy_crypto_h e) =
  config_adjust_legacy_crypto_h e.
Proof.
  apply config_adjust_legacy_crypto_h_guarded.
  destruct (decide (MBEDTLS_CONFIG_ADJUST_LEGACY_CRYPTO_H ∈ e)) as [Hg|Hg].
  - by rewrite config_adjust_legacy_crypto_h_guarded.
  - rewrite config_adjust_legacy_crypto_h_first by done.
    apply elem_of_define. by left.
Qed.

(** ** The fixed-point loop *)

Lemma resolve_loop_stop (fuel : nat) (e : gset string) :
  pass rules e = e -> resolve_loop (S fuel) e = Some (O, e).
Proof. intros He. cbn [resolve_loop]. by rewrite decide_True. Qed.

Lemma resolve_loop_progress (fuel n : nat) (e out : gset string) :
  pass rules e <> e -> resolve_loop fuel (pass rules e) = Some (n, out) ->
  resolve_loop (S fuel) e = Some (S n, out).
Proof.
  intros He Hk. change (resolve_loop (S fuel) e) with
    (if decide (pass rules e = e) then Some (O, e)
     else match resolve_loop fuel (pass rules e) with
          | Some (n, out) => Some (S n, out)
          | None => None
          end).
  rewrite decide_False by done. by rewrite Hk.
Qed.

Lemma third_pass_idle (e : gset string) :
  pass rules (pass rules (pass rules e)) = pass rules (pass rules e).
Proof.
  apply pass_closed. rewrite <- !resolve_pass. apply resolve2_closed.
Qed.

(** ** Vocabulary *)

Lemma flags_in_vocabulary (r : Rule) (f : string) :
  In r rules -> In f (flags (pred r)) -> In f vocabulary.
Proof.
  intros Hr Hf. unfold vocabulary.
  apply list_elem_of_In, elem_of_remove_dups, list_elem_of_In, in_flat_map.
  exists r. split; [done|]. apply in_or_app. by left.
Qed.

Lemma consequent_in_vocabulary (r : Rule) : In r rules -> In (consequent r) vocabulary.
Proof.
  intros Hr. unfold vocabulary.
  apply list_elem_of_In, elem_of_remove_dups, list_elem_of_In, in_flat_map.
  exists r. split; [done|]. apply in_or_app. right. by left.
Qed.

(** * The claims *)

(** C1 (defect of the header).  The output of [resolve] is not always the
    closure of the base set: with [MBEDTLS_PSA_CRYPTO_C], [MBEDTLS_RSA_C] and
    [MBEDTLS_ECP_C] as base set, [MBEDTLS_PK_PARSE_EC_COMPRESSED] is implied
    by a chain of two rules (line 132 defines [MBEDTLS_PK_PARSE_C], line 87
    reads it together with [MBEDTLS_ECP_C]), and the output has both
    [MBEDTLS_PK_PARSE_C] and [MBEDTLS_ECP_C] active, but
    [MBEDTLS_PK_PARSE_EC_COMPRESSED] inactive: the block of line 87 stands
    before the block of line 132 that defines what it reads. *)
Theorem resolve_misses_implied_flag :
  let base : gset string :=
    {[MBEDTLS_PSA_CRYPTO_C; MBEDTLS_RSA_C; MBEDTLS_ECP_C]} in
  implied base MBEDTLS_PK_PARSE_EC_COMPRESSED
  /\ MBEDTLS_PK_PARSE_C ∈ resolve base
  /\ MBEDTLS_ECP_C ∈ resolve base
  /\ (MBEDTLS_PK_PARSE_EC_COMPRESSED ∉ resolve base).
Proof.
  cbv zeta. split; [|repeat split; compute_done].
  apply implied_resolve2. compute_done.
Qed.

(** Where the output is the closure: on every base set but those of
    [late_pk_parse], and there the only flag missing is
    [MBEDTLS_PK_PARSE_EC_COMPRESSED]. *)
Lemma resolve_closure (base : gset string) (f : string) :
  implied base f <->
  f ∈ resolve base
  \/ (f = MBEDTLS_PK_PARSE_EC_COMPRESSED /\ late_pk_parse (mem base) = true).
Proof. rewrite implied_resolve2. apply resolve2_second_pass. Qed.

(** C2 (defect of the header).  Not every two-rule chain resolves fully.
    The rule of line 132 defines [MBEDTLS_PK_PARSE_C] when
    [MBEDTLS_PSA_CRYPTO_C] and [MBEDTLS_RSA_C] are defined, and the rule of
    line 87 reads [MBEDTLS_PK_PARSE_C] together with [MBEDTLS_ECP_C]: on the
    base set made of the three trigger flags the first link is active in the
    output and the second, [MBEDTLS_PK_PARSE_EC_COMPRESSED], is not, because
    line 87 is read before line 132.  The chain that the claim names does
    resolve: from [MBEDTLS_PSA_CRYPTO_C] and [MBEDTLS_RSA_C] both
    [MBEDTLS_PK_C] and [MBEDTLS_MD_LIGHT] are active. *)
Theorem chain_through_pk_parse_c_breaks :
  let base : gset string :=
    {[MBEDTLS_PSA_CRYPTO_C; MBEDTLS_RSA_C; MBEDTLS_ECP_C]} in
  let r1 := mkRule (all_of MBEDTLS_PSA_CRYPTO_C [MBEDTLS_RSA_C])
                   MBEDTLS_PK_PARSE_C in
  let r2 := mkRule (all_of MBEDTLS_PK_PARSE_C [MBEDTLS_ECP_C])
                   MBEDTLS_PK_PARSE_EC_COMPRESSED in
  In r1 rules /\ In r2 rules
  /\ eval (pred r1) base = true
  /\ eval (pred r2) (define (consequent r1) base) = true
  /\ consequent r1 ∈ resolve base
  /\ (consequent r2 ∉ resolve base)
  /\ MBEDTLS_PK_C ∈ resolve {[MBEDTLS_PSA_CRYPTO_C; MBEDTLS_RSA_C]}
  /\ MBEDTLS_MD_LIGHT ∈ resolve {[MBEDTLS_PSA_CRYPTO_C; MBEDTLS_RSA_C]}.
Proof.
  cbv zeta.
  split; [unfold rules; do 13 right; left; reflexivity|].
  split; [unfold rules; do 3 right; left; reflexivity|].
  split; [vm_compute; reflexivity|].
  split; [vm_compute; reflexivity|].
  cbn [consequent]. repeat split; compute_done.
Qed.

Lemma rules_some_first_perm : Permutation rules_some_first rules.
Proof.
  unfold rules_some_first.
  change rules with
    (firstn 9 rules
     ++ (mkRule (any_of MBEDTLS_PK_CAN_ECDSA_VERIFY [MBEDTLS_PK_CAN_ECDSA_SIGN])
                MBEDTLS_PK_CAN_ECDSA_SOME :: skipn 10 rules))%list at 3.
  apply Permutation_middle.
Qed.

(** One pass alone depends on the order in which the rules are read: with
    [MBEDTLS_ECDSA_C] as base set, reading the rule of line 118 before the
    others leaves [MBEDTLS_PK_CAN_ECDSA_SOME] inactive after the first
    pass. *)
Lemma one_pass_depends_on_order :
  (MBEDTLS_PK_CAN_ECDSA_SOME ∉ pass rules_some_first {[MBEDTLS_ECDSA_C]})
  /\ MBEDTLS_PK_CAN_ECDSA_SOME ∈ pass rules {[MBEDTLS_ECDSA_C]}.
Proof. split; compute_done. Qed.

Lemma resolve_loop_in_textual (fuel : nat) (e : gset string) :
  resolve_loop_in rules fuel e = resolve_loop fuel e.
Proof.
  revert e. induction fuel as [|k IH]; intros e; [reflexivity|].
  cbn [resolve_loop_in resolve_loop]. by rewrite IH.
Qed.

Lemma resolve_loop_in_stop (rs : list Rule) (fuel : nat) (e : gset string) :
  pass rs e = e -> resolve_loop_in rs (S fuel) e = Some (O, e).
Proof. intros He. cbn [resolve_loop_in]. by rewrite decide_True. Qed.

Lemma resolve_loop_in_progress (rs : list Rule) (fuel n : nat)
    (e out : gset string) :
  pass rs e <> e -> resolve_loop_in rs fuel (pass rs e) = Some (n, out) ->
  resolve_loop_in rs (S fuel) e = Some (S n, out).
Proof.
  intros He Hk. change (resolve_loop_in rs (S fuel) e) with
    (if decide (pass rs e = e) then Some (O, e)
     else match resolve_loop_in rs fuel (pass rs e) with
          | Some (n, out) => Some (S n, out)
          | None => None
          end).
  rewrite decide_False by done. by rewrite Hk.
Qed.

(** In any order the loop stops within two passes that made progress, at
    the set that two passes in textual order reach. *)
Lemma resolve_loop_in_result (rs : list Rule) (fuel : nat) (e : gset string) :
  Permutation rs rules ->
  exists n, resolve_loop_in rs (S (S (S fuel))) e
            = Some (n, resolve (resolve e)) /\ n <= 2.
Proof.
  intros Hp.
  pose proof (two_passes_any_order rs e Hp) as H2.
  assert (pass rs (resolve (resolve e)) = resolve (resolve e)) as H3
    by (apply pass_closed; by apply perm_closed, resolve2_closed).
  destruct (decide (pass rs e = e)) as [E0|N0].
  { exists 0. split; [|lia].
    assert (resolve (resolve e) = e) as -> by (rewrite <- H2, E0; exact E0).
    by apply resolve_loop_in_stop. }
  destruct (decide (pass rs (pass rs e) = pass rs e)) as [E1|N1].
  { exists 1. split; [|lia].
    apply resolve_loop_in_progress; [exact N0|].
    assert (resolve (resolve e) = pass rs e) as -> by (rewrite <- H2; exact E1).
    by apply resolve_loop_in_stop. }
  exists 2. split; [|lia].
  apply resolve_loop_in_progress; [exact N0|].
  apply resolve_loop_in_progress; [exact N1|].
  rewrite H2. apply resolve_loop_in_stop, H3.
Qed.

(** C3.  Order-independence of the resolution: for every base set and every
    permutation of the rule order, the fixed-point loop that reads the rules
    in that order returns, and it returns the flag set that the loop in
    textual order returns, which is the closure of the base set; only the
    numbers of passes that made progress may differ (both are at most two).
    For [MBEDTLS_ECP_LIGHT] and [MBEDTLS_MD_LIGHT], whose rules read a macro
    that a textually later rule defines, already the first pass gives the
    same state in any order. *)
Theorem order_independence (rs : list Rule) (base : gset string) :
  Permutation rs rules ->
  exists (n m : nat) (out : gset string),
    resolve_loop_in rs (S (length vocabulary)) base = Some (n, out)
    /\ resolve_loop_in rules (S (length vocabulary)) base = Some (m, out)
    /\ n <= 2 /\ m <= 2
    /\ (forall f, f ∈ out <-> implied base f)
    /\ (MBEDTLS_ECP_LIGHT ∈ pass rs base <-> MBEDTLS_ECP_LIGHT ∈ pass rules base)
    /\ (MBEDTLS_MD_LIGHT ∈ pass rs base <-> MBEDTLS_MD_LIGHT ∈ pass rules base).
Proof.
  intros Hp. rewrite vocabulary_size.
  destruct (resolve_loop_in_result rs 30 base Hp) as (n & Hn & Hn2).
  destruct (resolve_loop_in_result rules 30 base (Permutation_refl _))
    as (m & Hm & Hm2).
  exists n, m, (resolve (resolve base)).
  split; [exact Hn|]. split; [exact Hm|]. split; [exact Hn2|].
  split; [exact Hm2|].
  split; [intros f; symmetry; apply implied_resolve2|].
  assert (forall f, f <> MBEDTLS_PK_CAN_ECDSA_SOME ->
                    f <> MBEDTLS_PK_PARSE_EC_COMPRESSED ->
                    (f ∈ pass rs base <-> f ∈ pass rules base)) as Hone.
  { intros f Hs Hc. split; intros Hf.
    - apply (step_subseteq_pass rules); [done|].
      apply resolve2_shallow; [|done|done].
      by apply (pass_subseteq_resolve2 rs Hp).
    - apply (step_subseteq_pass rs Hp).
      apply resolve2_shallow; [|done|done].
      rewrite !resolve_pass. by apply pass_subseteq. }
  split; by apply Hone.
Qed.

Lemma order_independence_witness :
  exists (n m : nat) (out : gset string),
    resolve_loop_in rules_some_first (S (length vocabulary)) {[MBEDTLS_ECDSA_C]}
    = Some (n, out)
    /\ resolve_loop_in rules (S (length vocabulary)) {[MBEDTLS_ECDSA_C]}
       = Some (m, out).
Proof.
  destruct (order_independence rules_some_first {[MBEDTLS_ECDSA_C]}
              rules_some_first_perm) as (n & m & out & Hn & Hm & _).
  exists n, m, out. split; [exact Hn|exact Hm].
Defined.

(** C4, as the claim states it, fails: adding [MBEDTLS_USE_PSA_CRYPTO] to
    the base set made of [MBEDTLS_ECDH_C] deactivates [MBEDTLS_CAN_ECDH],
    whose rule (line 93) has [!defined(MBEDTLS_USE_PSA_CRYPTO)] in its
    condition. *)
Lemma monotonicity_fails_across_use_psa :
  ({[MBEDTLS_ECDH_C]} : gset string)
    ⊆ {[MBEDTLS_ECDH_C; MBEDTLS_USE_PSA_CRYPTO]}
  /\ MBEDTLS_CAN_ECDH ∈ resolve {[MBEDTLS_ECDH_C]}
  /\ (MBEDTLS_CAN_ECDH ∉ resolve {[MBEDTLS_ECDH_C; MBEDTLS_USE_PSA_CRYPTO]})
  /\ ~ resolve {[MBEDTLS_ECDH_C]}
       ⊆ resolve {[MBEDTLS_ECDH_C; MBEDTLS_USE_PSA_CRYPTO]}.
Proof.
  split; [set_solver|]. split; [compute_done|]. split; [compute_done|].
  intros Hsub.
  assert (MBEDTLS_CAN_ECDH ∈ resolve {[MBEDTLS_ECDH_C; MBEDTLS_USE_PSA_CRYPTO]})
    as Hin by (apply Hsub; compute_done).
  revert Hin. compute_done.
Qed.

(** C4 (amended).  For every two base sets [b1 ⊆ b2] in which
    [MBEDTLS_USE_PSA_CRYPTO] has the same state, every flag active in
    [resolve b1] is active in [resolve b2]. *)
Theorem monotonicity (b1 b2 : gset string) :
  b1 ⊆ b2 ->
  (MBEDTLS_USE_PSA_CRYPTO ∈ b2 -> MBEDTLS_USE_PSA_CRYPTO ∈ b1) ->
  resolve b1 ⊆ resolve b2.
Proof.
  intros Hsub Hu. rewrite !resolve_pass.
  apply (pass_mono MBEDTLS_USE_PSA_CRYPTO); [apply rules_guarded|by split].
Qed.

Lemma monotonicity_witness :
  resolve {[MBEDTLS_ECDH_C]} ⊆ resolve {[MBEDTLS_ECDH_C; MBEDTLS_ECP_C]}.
Proof.
  refine (monotonicity {[MBEDTLS_ECDH_C]} {[MBEDTLS_ECDH_C; MBEDTLS_ECP_C]} _ _).
  - compute_done.
  - intros H. exfalso. revert H. compute_done.
Defined.

(** C5 (defect of the header).  Resolving the output again is not always a
    no-op: from [MBEDTLS_PSA_CRYPTO_C], [MBEDTLS_RSA_C] and [MBEDTLS_ECP_C]
    the first resolution leaves [MBEDTLS_PK_PARSE_EC_COMPRESSED] inactive
    and the second one activates it. *)
Theorem resolve_twice_differs :
  let base : gset string :=
    {[MBEDTLS_PSA_CRYPTO_C; MBEDTLS_RSA_C; MBEDTLS_ECP_C]} in
  (MBEDTLS_PK_PARSE_EC_COMPRESSED ∉ resolve base)
  /\ MBEDTLS_PK_PARSE_EC_COMPRESSED ∈ resolve (resolve base)
  /\ resolve (resolve base) <> resolve base.
Proof. cbv zeta. repeat split; compute_done. Qed.

(** A third resolution changes nothing, and the second one changes
    something only on the base sets of [late_pk_parse]. *)
Lemma resolve_thrice (base : gset string) :
  resolve (resolve (resolve base)) = resolve (resolve base).
Proof. rewrite !resolve_pass. apply third_pass_idle. Qed.

Lemma resolve_twice (base : gset string) :
  late_pk_parse (mem base) = false -> resolve (resolve base) = resolve base.
Proof.
  intros Hl. apply set_eq. intros x. rewrite resolve2_second_pass, Hl.
  naive_solver.
Qed.

(** C6.  The fixed-point iteration terminates within the bound: for every
    base set the loop, given one pass more than there are flags, stops at a
    pass that makes no progress after at most [length vocabulary] passes
    that made progress (in fact at most two), and returns a set that a
    further pass leaves unchanged. *)
Theorem fixed_point_within_vocabulary (base : gset string) :
  exists (n : nat) (out : gset string),
    resolve_loop (S (length vocabulary)) base = Some (n, out)
    /\ n <= length vocabulary
    /\ n <= 2
    /\ out = Nat.iter n (pass rules) base
    /\ pass rules out = out.
Proof.
  rewrite vocabulary_size.
  destruct (decide (pass rules base = base)) as [H0|H0].
  { exists 0, base. split; [by apply resolve_loop_stop|].
    split; [lia|]. split; [lia|]. split; [cbv [Nat.iter nat_rect]; exact eq_refl|exact H0]. }
  destruct (decide (pass rules (pass rules base) = pass rules base)) as [H1|H1].
  { exists 1, (pass rules base). split.
    - apply resolve_loop_progress; [exact H0|]. apply resolve_loop_stop, H1.
    - split; [lia|]. split; [lia|]. split; [cbv [Nat.iter nat_rect]; exact eq_refl|exact H1]. }
  exists 2, (pass rules (pass rules base)). split.
  - apply resolve_loop_progress; [exact H0|].
    apply resolve_loop_progress; [exact H1|].
    apply resolve_loop_stop, third_pass_idle.
  - split; [lia|]. split; [lia|]. split; [cbv [Nat.iter nat_rect]; exact eq_refl|apply third_pass_idle].
Qed.

(** C7.  Resolving the base set made of [MBEDTLS_PK_PARSE_C] and
    [MBEDTLS_ECP_C] activates [MBEDTLS_PK_PARSE_EC_COMPRESSED]; the output is
    the base set with the three flags it implies, and every flag the base
    set does not imply is inactive; with [MBEDTLS_PK_PARSE_C] alone,
    [MBEDTLS_PK_PARSE_EC_COMPRESSED] stays inactive. *)
Theorem and_predicate_scenario :
  let base : gset string := {[MBEDTLS_PK_PARSE_C; MBEDTLS_ECP_C]} in
  MBEDTLS_PK_PARSE_EC_COMPRESSED ∈ resolve base
  /\ resolve base =
     {[MBEDTLS_PK_PARSE_C; MBEDTLS_ECP_C; MBEDTLS_ECP_LIGHT;
       MBEDTLS_PK_PARSE_EC_COMPRESSED; MBEDTLS_PK_HAVE_ECC_KEYS]}
  /\ (forall f, ~ implied base f -> f ∉ resolve base)
  /\ (MBEDTLS_PK_PARSE_EC_COMPRESSED ∉ resolve {[MBEDTLS_PK_PARSE_C]}).
Proof.
  cbv zeta. split; [compute_done|]. split; [compute_done|].
  split; [|compute_done].
  intros f Hn Hf. by apply Hn, resolve_sound.
Qed.

Lemma and_predicate_scenario_witness :
  MBEDTLS_MD_LIGHT ∉ resolve {[MBEDTLS_PK_PARSE_C; MBEDTLS_ECP_C]}.
Proof.
  refine (proj1 (proj2 (proj2 and_predicate_scenario)) MBEDTLS_MD_LIGHT _).
  intros H%implied_resolve2. revert H. compute_done.
Defined.

(** C8, as the claim states it, fails: a base set naming a macro the header
    never mentions is resolved without any error, and the name stays
    active in the output. *)
Lemma unknown_flag_not_rejected :
  ~ In "MBEDTLS_NO_SUCH_OPTION" vocabulary
  /\ resolve_outcome {["MBEDTLS_NO_SUCH_OPTION"]}
     = Resolved {["MBEDTLS_NO_SUCH_OPTION"]}
  /\ forall msg, resolve_outcome {["MBEDTLS_NO_SUCH_OPTION"]} <> ConfigError msg.
Proof.
  split; [rewrite <- list_elem_of_In; compute_done|].
  split; [|discriminate].
  unfold resolve_outcome. apply (f_equal Resolved). compute_done.
Qed.

(** C8 (amended).  For every base set and every name [u] outside the
    vocabulary, resolving the base set with [u] added reports no error: the
    output is the output for the base set, with [u] active in it. *)
Theorem unknown_flag_kept (base : gset string) (u : string) :
  ~ In u vocabulary ->
  resolve_outcome (define u base) = Resolved (define u (resolve base))
  /\ u ∈ resolve (define u base).
Proof.
  intros Hu.
  assert (resolve (define u base) = define u (resolve base)) as Heq.
  { rewrite !resolve_pass. apply pass_frame_define.
    intros r Hr Hf. apply Hu. by eapply flags_in_vocabulary. }
  unfold resolve_outcome. rewrite Heq. split; [done|].
  apply elem_of_define. by left.
Qed.

Lemma unknown_flag_kept_witness :
  resolve_outcome (define "MBEDTLS_NO_SUCH_OPTION" {[MBEDTLS_MD_C]})
  = Resolved (define "MBEDTLS_NO_SUCH_OPTION" (resolve {[MBEDTLS_MD_C]}))
  /\ "MBEDTLS_NO_SUCH_OPTION"
       ∈ resolve (define "MBEDTLS_NO_SUCH_OPTION" {[MBEDTLS_MD_C]}).
Proof.
  refine (unknown_flag_kept {[MBEDTLS_MD_C]} "MBEDTLS_NO_SUCH_OPTION" _).
  rewrite <- list_elem_of_In. compute_done.
Defined.

(** C9.  No rule defines [MBEDTLS_USE_PSA_CRYPTO] or a macro whose name
    starts with [PSA_WANT_]: for every base set, such a flag has in the
    output the state it has in the base set. *)
Theorem psa_inputs_unchanged (base : gset string) (f : string) :
  f = MBEDTLS_USE_PSA_CRYPTO \/ String.prefix "PSA_WANT_" f = true ->
  ~ In f (consequents rules) /\ (f ∈ resolve base <-> f ∈ base).
Proof.
  intros Hf.
  assert (~ In f (consequents rules)) as Hn.
  { unfold consequents, rules; cbn [map consequent In].
    intros Hin.
    repeat (destruct Hin as [<-|Hin];
            [destruct Hf as [Hf|Hf]; vm_compute in Hf; discriminate Hf|]).
    exact Hin. }
  split; [exact Hn|]. rewrite resolve_pass. by apply pass_frame.
Qed.

Lemma psa_inputs_unchanged_witness :
  PSA_WANT_ALG_ECDH ∈ resolve {[PSA_WANT_ALG_ECDH; MBEDTLS_ECDH_C]}
  <-> PSA_WANT_ALG_ECDH ∈ ({[PSA_WANT_ALG_ECDH; MBEDTLS_ECDH_C]} : gset string).
Proof.
  refine (proj2 (psa_inputs_unchanged {[PSA_WANT_ALG_ECDH; MBEDTLS_ECDH_C]}
                   PSA_WANT_ALG_ECDH _)).
  right. vm_compute. reflexivity.
Defined.

(** C10, as the claim states it, fails: a base set may itself name one of
    the two capability flags.  With [MBEDTLS_PK_CAN_ECDSA_SIGN] as base set,
    [MBEDTLS_USE_PSA_CRYPTO] and [MBEDTLS_ECDSA_C] are inactive, yet
    [MBEDTLS_PK_CAN_ECDSA_SIGN] is active in the output and
    [MBEDTLS_PK_CAN_ECDSA_VERIFY] is not. *)
Lemma ecdsa_capabilities_differ_without_psa :
  let base : gset string := {[MBEDTLS_PK_CAN_ECDSA_SIGN]} in
  (MBEDTLS_USE_PSA_CRYPTO ∉ base)
  /\ (MBEDTLS_ECDSA_C ∉ resolve base)
  /\ MBEDTLS_PK_CAN_ECDSA_SIGN ∈ resolve base
  /\ (MBEDTLS_PK_CAN_ECDSA_VERIFY ∉ resolve base).
Proof. cbv zeta. repeat split; compute_done. Qed.

(** C10 (amended).  For every base set in which neither
    [MBEDTLS_PK_CAN_ECDSA_SIGN] nor [MBEDTLS_PK_CAN_ECDSA_VERIFY] is itself
    active: when [MBEDTLS_USE_PSA_CRYPTO] is inactive the two flags have
    equal final states, both active exactly when [MBEDTLS_ECDSA_C] is; when
    [MBEDTLS_USE_PSA_CRYPTO] is active, sign is active exactly when
    [PSA_WANT_ALG_ECDSA] and [PSA_WANT_KEY_TYPE_ECC_KEY_PAIR_BASIC] are, and
    verify exactly when [PSA_WANT_ALG_ECDSA] and
    [PSA_WANT_KEY_TYPE_ECC_PUBLIC_KEY] are. *)
Theorem ecdsa_capabilities (base : gset string) :
  MBEDTLS_PK_CAN_ECDSA_SIGN ∉ base ->
  MBEDTLS_PK_CAN_ECDSA_VERIFY ∉ base ->
  (MBEDTLS_USE_PSA_CRYPTO ∉ base ->
     (MBEDTLS_PK_CAN_ECDSA_SIGN ∈ resolve base <-> MBEDTLS_ECDSA_C ∈ base)
     /\ (MBEDTLS_PK_CAN_ECDSA_VERIFY ∈ resolve base <-> MBEDTLS_ECDSA_C ∈ base))
  /\ (MBEDTLS_USE_PSA_CRYPTO ∈ base ->
        (MBEDTLS_PK_CAN_ECDSA_SIGN ∈ resolve base <->
           PSA_WANT_ALG_ECDSA ∈ base
           /\ PSA_WANT_KEY_TYPE_ECC_KEY_PAIR_BASIC ∈ base)
        /\ (MBEDTLS_PK_CAN_ECDSA_VERIFY ∈ resolve base <->
              PSA_WANT_ALG_ECDSA ∈ base
              /\ PSA_WANT_KEY_TYPE_ECC_PUBLIC_KEY ∈ base)).
Proof.
  intros Hs%defined_false Hv%defined_false.
  change (mem base MBEDTLS_PK_CAN_ECDSA_SIGN = false) in Hs.
  change (mem base MBEDTLS_PK_CAN_ECDSA_VERIFY = false) in Hv.
  rewrite !elem_of_resolve, ecdsa_signb, ecdsa_verifyb, Hs, Hv. cbn [orb].
  split.
  - intros Hu%defined_false.
    change (mem base MBEDTLS_USE_PSA_CRYPTO = false) in Hu. rewrite Hu.
    by rewrite !mem_true.
  - intros Hu%defined_true.
    change (mem base MBEDTLS_USE_PSA_CRYPTO = true) in Hu. rewrite Hu.
    by rewrite !andb_true_iff, !mem_true.
Qed.

Lemma ecdsa_capabilities_witness :
  MBEDTLS_PK_CAN_ECDSA_SIGN ∈ resolve {[MBEDTLS_ECDSA_C]}
  <-> MBEDTLS_ECDSA_C ∈ ({[MBEDTLS_ECDSA_C]} : gset string).
Proof.
  refine (proj1 (proj1 (ecdsa_capabilities {[MBEDTLS_ECDSA_C]} _ _) _));
    compute_done.
Defined.

(** * Further properties of the header *)

(** ** The include guard (lines 34-35 and 146) *)

(** X1.  Including the header a second time changes nothing: whatever the
    macros defined before the first inclusion, the second one leaves the
    table as the first one left it. *)
Theorem second_inclusion_is_idle (e : gset string) :
  config_adjust_legacy_crypto_h (config_adjust_legacy_crypto_h e) =
  config_adjust_legacy_crypto_h e.
Proof. apply config_adjust_legacy_crypto_h_twice. Qed.

(** X3.  On first inclusion the header defines its guard and, the guard
    apart, leaves exactly the flags that the body resolves: the guard is read
    by no condition of the body. *)
Theorem first_inclusion (e : gset string) :
  MBEDTLS_CONFIG_ADJUST_LEGACY_CRYPTO_H ∉ e ->
  MBEDTLS_CONFIG_ADJUST_LEGACY_CRYPTO_H ∈ config_adjust_legacy_crypto_h e
  /\ (forall f, f <> MBEDTLS_CONFIG_ADJUST_LEGACY_CRYPTO_H ->
                (f ∈ config_adjust_legacy_crypto_h e <-> f ∈ resolve e)).
Proof.
  intros Hg. rewrite config_adjust_legacy_crypto_h_first by done. split.
  - apply elem_of_define. by left.
  - intros f Hf. rewrite elem_of_define. naive_solver.
Qed.

Lemma first_inclusion_witness :
  MBEDTLS_CONFIG_ADJUST_LEGACY_CRYPTO_H
    ∈ config_adjust_legacy_crypto_h {[MBEDTLS_MD_C]}.
Proof.
  refine (proj1 (first_inclusion {[MBEDTLS_MD_C]} _)). compute_done.
Defined.

(** ** What the body never does (lines 37-144) *)

(** X4.  The header never undefines a macro: every macro defined before it
    is read is still defined afterwards, for the body and for the whole
    file. *)
Theorem never_undefines (e : gset string) :
  e ⊆ resolve e /\ e ⊆ config_adjust_legacy_crypto_h e.
Proof.
  assert (e ⊆ resolve e) as Hr by (rewrite resolve_pass; apply pass_subseteq).
  split; [done|].
  destruct (decide (MBEDTLS_CONFIG_ADJUST_LEGACY_CRYPTO_H ∈ e)) as [Hg|Hg].
  - by rewrite config_adjust_legacy_crypto_h_guarded.
  - rewrite config_adjust_legacy_crypto_h_first by done.
    etrans; [exact Hr|apply define_subseteq].
Qed.

(** X5.  The body defines twelve macros and no other: a macro outside that
    list - such as [MBEDTLS_ECP_C], [MBEDTLS_RSA_C] or [MBEDTLS_MD_C] - is
    defined afterwards exactly when it was defined before. *)
Theorem only_derived_macros_defined (e : gset string) (f : string) :
  ~ In f [MBEDTLS_MD_LIGHT; MBEDTLS_ECP_LIGHT; MBEDTLS_PK_PARSE_EC_COMPRESSED;
          MBEDTLS_CAN_ECDH; MBEDTLS_PK_CAN_ECDSA_SIGN;
          MBEDTLS_PK_CAN_ECDSA_VERIFY; MBEDTLS_PK_CAN_ECDSA_SOME;
          MBEDTLS_PSA_CRYPTO_CLIENT; MBEDTLS_PK_C; MBEDTLS_PK_WRITE_C;
          MBEDTLS_PK_PARSE_C; MBEDTLS_PK_HAVE_ECC_KEYS] ->
  (f ∈ resolve e <-> f ∈ e).
Proof.
  intros Hf. rewrite resolve_pass. apply pass_frame.
  intros Hin. apply Hf. revert Hin.
  unfold consequents, rules; cbn [map consequent In]. tauto.
Qed.

Lemma only_derived_macros_defined_witness :
  MBEDTLS_ECP_C ∈ resolve {[MBEDTLS_PK_PARSE_C]}
  <-> MBEDTLS_ECP_C ∈ ({[MBEDTLS_PK_PARSE_C]} : gset string).
Proof.
  refine (only_derived_macros_defined {[MBEDTLS_PK_PARSE_C]} MBEDTLS_ECP_C _).
  rewrite <- list_elem_of_In. compute_done.
Defined.

(** A condition has the same value on two tables that agree on the macros
    it reads. *)
Lemma eval_agree (p : Pred) (e e' : gset string) :
  (forall f, In f (flags p) -> (f ∈ e <-> f ∈ e')) -> eval p e = eval p e'.
Proof.
  induction p as [f|p IHp q IHq|p IHp q IHq|p IHp]; cbn [eval flags]; intros H.
  - apply eq_true_iff_eq. rewrite !defined_true. apply H. by left.
  - rewrite IHp, IHq; [done| |]; intros f Hf; apply H, in_or_app; auto.
  - rewrite IHp, IHq; [done| |]; intros f Hf; apply H, in_or_app; auto.
  - by rewrite IHp.
Qed.

Lemma pass_agree (rs : list Rule) (e e' : gset string) :
  (forall r, In r rs -> In r rules) ->
  (forall f, In f vocabulary -> (f ∈ e <-> f ∈ e')) ->
  forall f, In f vocabulary -> (f ∈ pass rs e <-> f ∈ pass rs e').
Proof.
  revert e e'. induction rs as [|r rs IH]; intros e e' Hrs Hag; [done|].
  rewrite !pass_cons. apply IH; [intros r' Hr'; apply Hrs; by right|].
  intros f Hf. rewrite !elem_of_fire.
  rewrite (eval_agree (pred r) e e'), (Hag f Hf); [done|].
  intros g Hg. apply Hag. eapply flags_in_vocabulary; [|done].
  apply Hrs. by left.
Qed.

(** X6.  Macros the header does not mention have no influence: two tables
    that agree on the 32 macros of the header give every one of them the
    same state after the header. *)
Theorem unmentioned_macros_have_no_influence (e e' : gset string) :
  Forall (fun f => f ∈ e <-> f ∈ e') vocabulary ->
  Forall (fun f => f ∈ resolve e <-> f ∈ resolve e') vocabulary.
Proof.
  rewrite !Forall_forall. intros Hag f Hf%list_elem_of_In.
  rewrite !resolve_pass. apply pass_agree; [done| |done].
  intros g Hg. by apply Hag, list_elem_of_In.
Qed.

Lemma unmentioned_macros_have_no_influence_witness :
  Forall (fun f => f ∈ resolve {[MBEDTLS_MD_C; "MBEDTLS_AES_C"]}
                   <-> f ∈ resolve {[MBEDTLS_MD_C; "MBEDTLS_SHA256_C"]})
         vocabulary.
Proof.
  refine (unmentioned_macros_have_no_influence
            {[MBEDTLS_MD_C; "MBEDTLS_AES_C"]}
            {[MBEDTLS_MD_C; "MBEDTLS_SHA256_C"]} _).
  compute_done.
Defined.

(** X7.  Nothing comes from nothing: no condition of the header holds by
    an absence alone.  When none of the macros read by the conditions is
    defined, [MBEDTLS_USE_PSA_CRYPTO] apart, the header defines nothing -
    whether [MBEDTLS_USE_PSA_CRYPTO] is defined or not. *)
Theorem no_trigger_no_change (e : gset string) :
  (forall r f, In r rules -> In f (flags (pred r)) ->
               f <> MBEDTLS_USE_PSA_CRYPTO -> f ∉ e) ->
  resolve e = e.
Proof.
  intros Hno. rewrite resolve_pass.
  assert (Forall (fun r => eval (pred r) ∅ = false
                           /\ eval (pred r) {[MBEDTLS_USE_PSA_CRYPTO]} = false)
                 rules) as Hoff
    by (unfold rules; repeat constructor; vm_compute; reflexivity).
  revert Hoff Hno. generalize rules. intros rs Hoff Hno.
  induction rs as [|r rs IH]; [done|].
  inversion Hoff as [|?? [H0 H1] Hoff']; subst. rewrite pass_cons.
  rewrite fire_false.
  - apply IH; [done|]. intros r' f Hr' Hf. apply (Hno r' f); [by right|done].
  - destruct (decide (MBEDTLS_USE_PSA_CRYPTO ∈ e)) as [Hu|Hu].
    + rewrite <- H1. apply eval_agree. intros f Hf.
      destruct (decide (f = MBEDTLS_USE_PSA_CRYPTO)) as [->|Hne];
        [set_solver|].
      pose proof (Hno r f (or_introl eq_refl) Hf Hne). set_solver.
    + rewrite <- H0. apply eval_agree. intros f Hf.
      destruct (decide (f = MBEDTLS_USE_PSA_CRYPTO)) as [->|Hne];
        [set_solver|].
      pose proof (Hno r f (or_introl eq_refl) Hf Hne). set_solver.
Qed.

Lemma no_trigger_no_change_witness :
  resolve {[MBEDTLS_USE_PSA_CRYPTO; MBEDTLS_MD_LIGHT]}
  = {[MBEDTLS_USE_PSA_CRYPTO; MBEDTLS_MD_LIGHT]}.
Proof.
  refine (no_trigger_no_change {[MBEDTLS_USE_PSA_CRYPTO; MBEDTLS_MD_LIGHT]} _).
  assert (Forall (fun r =>
            Forall (fun f => f <> MBEDTLS_USE_PSA_CRYPTO ->
                             f ∉ ({[MBEDTLS_USE_PSA_CRYPTO; MBEDTLS_MD_LIGHT]}
                                  : gset string))
                   (flags (pred r))) rules) as H
    by compute_done.
  intros r f Hr%list_elem_of_In Hf%list_elem_of_In.
  rewrite Forall_forall in H. specialize (H r Hr).
  rewrite Forall_forall in H. exact (H f Hf).
Defined.

(** ** The state of each derived macro after the header *)

Lemma mem_false (e : gset string) (x : string) : mem e x = false <-> x ∉ e.
Proof. apply defined_false. Qed.

(** Turn a boolean closed form over [mem e] into memberships. *)
Ltac to_sets :=
  rewrite ?orb_true_iff, ?andb_true_iff, ?negb_true_iff, ?mem_true, ?mem_false.

Lemma satisfiedb (m : string -> bool) :
  Forall (fun r =>
            String.eqb (consequent r) MBEDTLS_PK_PARSE_EC_COMPRESSED = false ->
            evalb (pred r) (passb rules m) = true ->
            passb rules m (consequent r) = true) rules.
Proof.
  unfold rules at 1. repeat (constructor; [vm_compute; split_atoms m|]).
  constructor.
Qed.

(** X8.  After the header, every block but that of line 87 is satisfied:
    if the condition of a rule other than the one defining
    [MBEDTLS_PK_PARSE_EC_COMPRESSED] holds on the output, the macro of the
    rule is defined in the output, also where the condition reads a macro
    that a later block defines (lines 50 and 77). *)
Theorem output_satisfies_blocks (e : gset string) (r : Rule) :
  In r rules ->
  consequent r <> MBEDTLS_PK_PARSE_EC_COMPRESSED ->
  eval (pred r) (resolve e) = true ->
  consequent r ∈ resolve e.
Proof.
  intros Hr Hc He. apply elem_of_resolve.
  pose proof (satisfiedb (mem e)) as Hs. rewrite Forall_forall in Hs.
  apply Hs; [by apply list_elem_of_In|by apply String.eqb_neq|].
  rewrite eval_evalb, resolve_pass in He. rewrite <- He.
  apply evalb_ext. intros x. symmetry. apply mem_pass.
Qed.

Lemma output_satisfies_blocks_witness :
  MBEDTLS_MD_LIGHT ∈ resolve {[MBEDTLS_PSA_CRYPTO_C; MBEDTLS_RSA_C]}.
Proof.
  refine (output_satisfies_blocks {[MBEDTLS_PSA_CRYPTO_C; MBEDTLS_RSA_C]}
            (mkRule (any_of MBEDTLS_ECJPAKE_C
                       [MBEDTLS_PEM_PARSE_C; MBEDTLS_ENTROPY_C; MBEDTLS_PK_C;
                        MBEDTLS_PKCS12_C; MBEDTLS_RSA_C; MBEDTLS_SSL_TLS_C;
                        MBEDTLS_X509_USE_C; MBEDTLS_X509_CREATE_C])
                    MBEDTLS_MD_LIGHT) _ _ _).
  - unfold rules. right. left. reflexivity.
  - compute_done.
  - vm_compute. reflexivity.
Defined.

Lemma md_lightb (m : string -> bool) :
  passb rules m MBEDTLS_MD_LIGHT =
  m MBEDTLS_MD_LIGHT || m MBEDTLS_MD_C || m MBEDTLS_ECJPAKE_C
  || m MBEDTLS_PEM_PARSE_C || m MBEDTLS_ENTROPY_C || m MBEDTLS_PK_C
  || m MBEDTLS_PKCS12_C || m MBEDTLS_RSA_C || m MBEDTLS_SSL_TLS_C
  || m MBEDTLS_X509_USE_C || m MBEDTLS_X509_CREATE_C.
Proof. vm_compute; split_atoms m. Qed.

(** X9.  [MBEDTLS_MD_LIGHT] is defined after the header exactly when it or
    [MBEDTLS_MD_C] or one of the nine modules of lines 47-55 was defined
    before it. *)
Theorem md_light_state (e : gset string) :
  MBEDTLS_MD_LIGHT ∈ resolve e <->
  MBEDTLS_MD_LIGHT ∈ e \/ MBEDTLS_MD_C ∈ e \/ MBEDTLS_ECJPAKE_C ∈ e
  \/ MBEDTLS_PEM_PARSE_C ∈ e \/ MBEDTLS_ENTROPY_C ∈ e \/ MBEDTLS_PK_C ∈ e
  \/ MBEDTLS_PKCS12_C ∈ e \/ MBEDTLS_RSA_C ∈ e \/ MBEDTLS_SSL_TLS_C ∈ e
  \/ MBEDTLS_X509_USE_C ∈ e \/ MBEDTLS_X509_CREATE_C ∈ e.
Proof. rewrite elem_of_resolve, md_lightb. to_sets. tauto. Qed.

Lemma ecp_lightb (m : string -> bool) :
  passb rules m MBEDTLS_ECP_LIGHT =
  m MBEDTLS_ECP_LIGHT || m MBEDTLS_ECP_C || m MBEDTLS_PK_PARSE_EC_EXTENDED
  || m MBEDTLS_PK_PARSE_EC_COMPRESSED
  || m MBEDTLS_PSA_BUILTIN_KEY_TYPE_ECC_KEY_PAIR_DERIVE.
Proof. vm_compute; split_atoms m. Qed.

(** X10.  [MBEDTLS_ECP_LIGHT] is defined after the header exactly when it
    or one of the four macros of lines 75-78 was defined before it. *)
Theorem ecp_light_state (e : gset string) :
  MBEDTLS_ECP_LIGHT ∈ resolve e <->
  MBEDTLS_ECP_LIGHT ∈ e \/ MBEDTLS_ECP_C ∈ e
  \/ MBEDTLS_PK_PARSE_EC_EXTENDED ∈ e \/ MBEDTLS_PK_PARSE_EC_COMPRESSED ∈ e
  \/ MBEDTLS_PSA_BUILTIN_KEY_TYPE_ECC_KEY_PAIR_DERIVE ∈ e.
Proof. rewrite elem_of_resolve, ecp_lightb. to_sets. tauto. Qed.

Lemma compressedb (m : string -> bool) :
  passb rules m MBEDTLS_PK_PARSE_EC_COMPRESSED =
  m MBEDTLS_PK_PARSE_EC_COMPRESSED || (m MBEDTLS_PK_PARSE_C && m MBEDTLS_ECP_C).
Proof. vm_compute; split_atoms m. Qed.

(** X11.  [MBEDTLS_PK_PARSE_EC_COMPRESSED] is defined after the header
    exactly when it was defined before it, or [MBEDTLS_PK_PARSE_C] and
    [MBEDTLS_ECP_C] both were: a [MBEDTLS_PK_PARSE_C] that the header itself
    defines (line 135) does not count. *)
Theorem pk_parse_ec_compressed_state (e : gset string) :
  MBEDTLS_PK_PARSE_EC_COMPRESSED ∈ resolve e <->
  MBEDTLS_PK_PARSE_EC_COMPRESSED ∈ e
  \/ (MBEDTLS_PK_PARSE_C ∈ e /\ MBEDTLS_ECP_C ∈ e).
Proof. rewrite elem_of_resolve, compressedb. to_sets. tauto. Qed.

Lemma can_ecdhb (m : string -> bool) :
  passb rules m MBEDTLS_CAN_ECDH =
  m MBEDTLS_CAN_ECDH
  || (if m MBEDTLS_USE_PSA_CRYPTO then m PSA_WANT_ALG_ECDH
      else m MBEDTLS_ECDH_C).
Proof. vm_compute; split_atoms m. Qed.

(** X12.  [MBEDTLS_CAN_ECDH] follows the mode: unless it was defined
    before the header, it is defined afterwards exactly when
    [PSA_WANT_ALG_ECDH] is, if [MBEDTLS_USE_PSA_CRYPTO] is defined, and
    exactly when [MBEDTLS_ECDH_C] is, if it is not.  In particular
    [MBEDTLS_ECDH_C] has no effect under [MBEDTLS_USE_PSA_CRYPTO]. *)
Theorem can_ecdh_state (e : gset string) :
  MBEDTLS_CAN_ECDH ∈ resolve e <->
  MBEDTLS_CAN_ECDH ∈ e
  \/ (MBEDTLS_USE_PSA_CRYPTO ∈ e /\ PSA_WANT_ALG_ECDH ∈ e)
  \/ ((MBEDTLS_USE_PSA_CRYPTO ∉ e) /\ MBEDTLS_ECDH_C ∈ e).
Proof.
  rewrite elem_of_resolve, can_ecdhb.
  destruct (mem e MBEDTLS_USE_PSA_CRYPTO) eqn:Hu.
  - apply mem_true in Hu. to_sets. tauto.
  - apply mem_false in Hu. to_sets. tauto.
Qed.

Lemma ecdsa_someb (m : string -> bool) :
  passb rules m MBEDTLS_PK_CAN_ECDSA_SOME =
  m MBEDTLS_PK_CAN_ECDSA_SOME
  || passb rules m MBEDTLS_PK_CAN_ECDSA_VERIFY
  || passb rules m MBEDTLS_PK_CAN_ECDSA_SIGN.
Proof. vm_compute; split_atoms m. Qed.

(** X13.  The ECDSA capabilities of lines 102-120, for every table: sign
    and verify are defined after the header exactly when they were defined
    before it or the branch of the mode grants them, and
    [MBEDTLS_PK_CAN_ECDSA_SOME] exactly when it was defined before or one of
    the two is defined after the header. *)
Theorem ecdsa_capabilities_state (e : gset string) :
  (MBEDTLS_PK_CAN_ECDSA_SIGN ∈ resolve e <->
     MBEDTLS_PK_CAN_ECDSA_SIGN ∈ e
     \/ ((MBEDTLS_USE_PSA_CRYPTO ∉ e) /\ MBEDTLS_ECDSA_C ∈ e)
     \/ (MBEDTLS_USE_PSA_CRYPTO ∈ e /\ PSA_WANT_ALG_ECDSA ∈ e
         /\ PSA_WANT_KEY_TYPE_ECC_KEY_PAIR_BASIC ∈ e))
  /\ (MBEDTLS_PK_CAN_ECDSA_VERIFY ∈ resolve e <->
        MBEDTLS_PK_CAN_ECDSA_VERIFY ∈ e
        \/ ((MBEDTLS_USE_PSA_CRYPTO ∉ e) /\ MBEDTLS_ECDSA_C ∈ e)
        \/ (MBEDTLS_USE_PSA_CRYPTO ∈ e /\ PSA_WANT_ALG_ECDSA ∈ e
            /\ PSA_WANT_KEY_TYPE_ECC_PUBLIC_KEY ∈ e))
  /\ (MBEDTLS_PK_CAN_ECDSA_SOME ∈ resolve e <->
        MBEDTLS_PK_CAN_ECDSA_SOME ∈ e
        \/ MBEDTLS_PK_CAN_ECDSA_SIGN ∈ resolve e
        \/ MBEDTLS_PK_CAN_ECDSA_VERIFY ∈ resolve e).
Proof.
  split; [|split].
  - rewrite elem_of_resolve, ecdsa_signb.
    destruct (mem e MBEDTLS_USE_PSA_CRYPTO) eqn:Hu.
    + apply mem_true in Hu. to_sets. tauto.
    + apply mem_false in Hu. to_sets. tauto.
  - rewrite elem_of_resolve, ecdsa_verifyb.
    destruct (mem e MBEDTLS_USE_PSA_CRYPTO) eqn:Hu.
    + apply mem_true in Hu. to_sets. tauto.
    + apply mem_false in Hu. to_sets. tauto.
  - rewrite !elem_of_resolve, ecdsa_someb. to_sets. tauto.
Qed.

Lemma psa_rsab (m : string -> bool) :
  passb rules m MBEDTLS_PSA_CRYPTO_CLIENT
  = m MBEDTLS_PSA_CRYPTO_CLIENT || m MBEDTLS_PSA_CRYPTO_C
  /\ Forall (fun f => passb rules m f
                      = m f || (m MBEDTLS_PSA_CRYPTO_C && m MBEDTLS_RSA_C))
            [MBEDTLS_PK_C; MBEDTLS_PK_WRITE_C; MBEDTLS_PK_PARSE_C].
Proof.
  split; [vm_compute; split_atoms m|].
  repeat (constructor; [vm_compute; split_atoms m|]). constructor.
Qed.

(** X14.  What [MBEDTLS_PSA_CRYPTO_C] brings (lines 125-136):
    [MBEDTLS_PSA_CRYPTO_CLIENT] is defined after the header exactly when it
    or [MBEDTLS_PSA_CRYPTO_C] was defined before, and each of
    [MBEDTLS_PK_C], [MBEDTLS_PK_WRITE_C] and [MBEDTLS_PK_PARSE_C] exactly
    when it was defined before or [MBEDTLS_PSA_CRYPTO_C] and [MBEDTLS_RSA_C]
    both were. *)
Theorem psa_crypto_c_state (e : gset string) :
  (MBEDTLS_PSA_CRYPTO_CLIENT ∈ resolve e <->
     MBEDTLS_PSA_CRYPTO_CLIENT ∈ e \/ MBEDTLS_PSA_CRYPTO_C ∈ e)
  /\ Forall (fun f => f ∈ resolve e <->
                      f ∈ e \/ (MBEDTLS_PSA_CRYPTO_C ∈ e /\ MBEDTLS_RSA_C ∈ e))
            [MBEDTLS_PK_C; MBEDTLS_PK_WRITE_C; MBEDTLS_PK_PARSE_C].
Proof.
  destruct (psa_rsab (mem e)) as [Hc Hpk]. split.
  - rewrite elem_of_resolve, Hc. to_sets. tauto.
  - eapply Forall_impl; [exact Hpk|]. intros f Hf. cbv beta in Hf.
    rewrite elem_of_resolve, Hf. to_sets. tauto.
Qed.

Lemma pk_have_ecc_keysb (m : string -> bool) :
  passb rules m MBEDTLS_PK_HAVE_ECC_KEYS =
  m MBEDTLS_PK_HAVE_ECC_KEYS || m MBEDTLS_ECP_C
  || (m MBEDTLS_USE_PSA_CRYPTO && m PSA_WANT_KEY_TYPE_ECC_PUBLIC_KEY).
Proof. vm_compute; split_atoms m. Qed.

(** X15.  [MBEDTLS_PK_HAVE_ECC_KEYS] is defined after the header exactly
    when it or [MBEDTLS_ECP_C] was defined before, or
    [MBEDTLS_USE_PSA_CRYPTO] and [PSA_WANT_KEY_TYPE_ECC_PUBLIC_KEY] both
    were. *)
Theorem pk_have_ecc_keys_state (e : gset string) :
  MBEDTLS_PK_HAVE_ECC_KEYS ∈ resolve e <->
  MBEDTLS_PK_HAVE_ECC_KEYS ∈ e \/ MBEDTLS_ECP_C ∈ e
  \/ (MBEDTLS_USE_PSA_CRYPTO ∈ e /\ PSA_WANT_KEY_TYPE_ECC_PUBLIC_KEY ∈ e).
Proof. rewrite elem_of_resolve, pk_have_ecc_keysb. to_sets. tauto. Qed.

(** ** The header and its rule table *)

(** X16.  The body of the header computes what its fifteen rules compute
    when they are read once in textual order; in particular the nested
    [#if]/[#else] block of lines 102-116 behaves as four rules, one per
    [#define], each under the conjunction of the conditions that enclose
    it. *)
Theorem header_is_one_pass (e : gset string) :
  adjust_legacy_crypto e = pass rules e
  /\ block_102 e = pass (firstn 4 (skipn 5 rules)) e.
Proof.
  split; [apply adjust_legacy_crypto_pass|apply block_102_rules].
Qed.

(** X20.  The shape of the conditions: the only macro tested under [!] is
    [MBEDTLS_USE_PSA_CRYPTO], no block defines it, and no condition reads
    the macro that its own block defines. *)
Theorem conditions_shape :
  Forall (fun r => nots_only_on MBEDTLS_USE_PSA_CRYPTO (pred r) = true
                   /\ consequent r <> MBEDTLS_USE_PSA_CRYPTO
                   /\ consequent r ∉ flags (pred r)) rules.
Proof. unfold rules. repeat constructor; compute_done. Qed.

(** ** The header and the closure of its rules *)

Lemma late_pk_parse_true (e : gset string) :
  late_pk_parse (mem e) = true <->
  MBEDTLS_PSA_CRYPTO_C ∈ e /\ MBEDTLS_RSA_C ∈ e /\ MBEDTLS_ECP_C ∈ e
  /\ (MBEDTLS_PK_PARSE_C ∉ e) /\ (MBEDTLS_PK_PARSE_EC_COMPRESSED ∉ e).
Proof. unfold late_pk_parse. to_sets. tauto. Qed.

(** X17.  How far one reading of the header is from the closure of its
    rules: a macro is implied by a chain of rules exactly when the header
    defines it, or it is [MBEDTLS_PK_PARSE_EC_COMPRESSED] and the table has
    [MBEDTLS_PSA_CRYPTO_C], [MBEDTLS_RSA_C] and [MBEDTLS_ECP_C] but neither
    [MBEDTLS_PK_PARSE_C] nor [MBEDTLS_PK_PARSE_EC_COMPRESSED]. *)
Theorem closure_gap (e : gset string) (f : string) :
  implied e f <->
  f ∈ resolve e
  \/ (f = MBEDTLS_PK_PARSE_EC_COMPRESSED
      /\ MBEDTLS_PSA_CRYPTO_C ∈ e /\ MBEDTLS_RSA_C ∈ e /\ MBEDTLS_ECP_C ∈ e
      /\ (MBEDTLS_PK_PARSE_C ∉ e) /\ (MBEDTLS_PK_PARSE_EC_COMPRESSED ∉ e)).
Proof.
  rewrite implied_resolve2, resolve2_second_pass, late_pk_parse_true. tauto.
Qed.

(** X18.  Reading the body again over its own output changes nothing,
    provided the table does not have [MBEDTLS_PSA_CRYPTO_C], [MBEDTLS_RSA_C]
    and [MBEDTLS_ECP_C] without [MBEDTLS_PK_PARSE_C] or
    [MBEDTLS_PK_PARSE_EC_COMPRESSED]. *)
Theorem resolve_again (e : gset string) :
  (MBEDTLS_PSA_CRYPTO_C ∈ e -> MBEDTLS_RSA_C ∈ e -> MBEDTLS_ECP_C ∈ e ->
   MBEDTLS_PK_PARSE_C ∈ e \/ MBEDTLS_PK_PARSE_EC_COMPRESSED ∈ e) ->
  resolve (resolve e) = resolve e.
Proof.
  intros He. apply set_eq. intros x.
  rewrite resolve2_second_pass, late_pk_parse_true. tauto.
Qed.

Lemma resolve_again_witness :
  resolve (resolve {[MBEDTLS_PSA_CRYPTO_C; MBEDTLS_RSA_C; MBEDTLS_ECP_C;
                     MBEDTLS_PK_PARSE_C]})
  = resolve {[MBEDTLS_PSA_CRYPTO_C; MBEDTLS_RSA_C; MBEDTLS_ECP_C;
              MBEDTLS_PK_PARSE_C]}.
Proof.
  refine (resolve_again {[MBEDTLS_PSA_CRYPTO_C; MBEDTLS_RSA_C; MBEDTLS_ECP_C;
                          MBEDTLS_PK_PARSE_C]} _).
  intros _ _ _. left. compute_done.
Defined.

(** X19.  Two readings of the body always reach a table that satisfies
    every block: no condition holds on it without its macro being defined,
    and a third reading changes nothing. *)
Theorem two_readings_settle (e : gset string) :
  Forall (fun r => eval (pred r) (resolve (resolve e)) = true ->
                   consequent r ∈ resolve (resolve e)) rules
  /\ resolve (resolve (resolve e)) = resolve (resolve e).
Proof.
  split.
  - apply Forall_forall. intros r Hr%list_elem_of_In.
    by apply resolve2_closed.
  - rewrite !resolve_pass. apply third_pass_idle.
Qed.

(** ** Two-rule chains *)

(** X21.  Every two-rule chain that does not end at line 87 resolves fully:
    when the condition of a rule [r1] holds on the table and the condition
    of a rule [r2], other than the one defining
    [MBEDTLS_PK_PARSE_EC_COMPRESSED], holds once the macro of [r1] is added
    to the table, the macros of both rules are defined after the header. *)
Theorem chains_resolve_except_line_87 (r1 r2 : Rule) (e : gset string) :
  In r1 rules -> In r2 rules ->
  consequent r2 <> MBEDTLS_PK_PARSE_EC_COMPRESSED ->
  eval (pred r1) e = true ->
  eval (pred r2) (define (consequent r1) e) = true ->
  consequent r1 ∈ resolve e /\ consequent r2 ∈ resolve e.
Proof.
  intros H1 H2 Hc He1 He2.
  assert (consequent r1 ∈ resolve e) as Hc1.
  { rewrite resolve_pass.
    eapply pass_fires; [apply rules_guarded|apply below_refl|done|done]. }
  split; [exact Hc1|].
  pose proof rules_guarded as Hg. rewrite Forall_forall in Hg.
  assert (eval (pred r2) (resolve e) = true) as He.
  { eapply eval_mono; [apply (Hg r2), list_elem_of_In, H2| |exact He2].
    pose proof (below_pass MBEDTLS_USE_PSA_CRYPTO rules e rules_guarded)
      as [Hsub Hu].
    rewrite <- resolve_pass in Hsub, Hu. split.
    - intros x [->|Hx]%elem_of_define; [exact Hc1|by apply Hsub].
    - intros Hin. apply define_subseteq. by apply Hu. }
  apply elem_of_resolve.
  pose proof (satisfiedb (mem e)) as Hs. rewrite Forall_forall in Hs.
  apply Hs; [by apply list_elem_of_In|by apply String.eqb_neq|].
  rewrite eval_evalb, resolve_pass in He. rewrite <- He.
  apply evalb_ext. intros x. symmetry. apply mem_pass.
Qed.

Lemma chains_resolve_except_line_87_witness :
  MBEDTLS_PK_CAN_ECDSA_SIGN ∈ resolve {[MBEDTLS_ECDSA_C]}
  /\ MBEDTLS_PK_CAN_ECDSA_SOME ∈ resolve {[MBEDTLS_ECDSA_C]}.
Proof.
  refine (chains_resolve_except_line_87
            (mkRule (PAnd (PNot (PFlag MBEDTLS_USE_PSA_CRYPTO))
                          (PFlag MBEDTLS_ECDSA_C))
                    MBEDTLS_PK_CAN_ECDSA_SIGN)
            (mkRule (any_of MBEDTLS_PK_CAN_ECDSA_VERIFY
                       [MBEDTLS_PK_CAN_ECDSA_SIGN])
                    MBEDTLS_PK_CAN_ECDSA_SOME)
            {[MBEDTLS_ECDSA_C]} _ _ _ _ _).
  - unfold rules. do 5 right. left. reflexivity.
  - unfold rules. do 9 right. left. reflexivity.
  - compute_done.
  - vm_compute. reflexivity.
  - vm_compute. reflexivity.
Defined.
